(** * Agent Council front end: session controller, colour assigner, scoring

    A shallow embedding of [static/app.js] (front end v5.0).  The functions
    keep the names they have in the source.

    Conventions of the model:
    - a JavaScript string is the list of its UTF-16 code units;
    - the numbers of the scoring engine (sub-scores, rubric weights, overall
      scores) are binary64 doubles, Rocq's primitive [float], and the
      arithmetic on them is the IEEE-754 arithmetic of the language;
      numbers that the page only passes along (round numbers, gauge values)
      are rationals ([Q]), lengths and times are natural numbers;
    - an object used as a dictionary is the collection of its own
      properties: [state.agentColors], [state.councils] and the statistics
      cache are finite maps, and [state.scores], which [Object.keys]
      enumerates, keeps the order of creation of its properties, from which
      the enumeration order of the language is computed.  A read [o[k]] of a
      name that [o] does not own finds what [Object.prototype] has under
      that name ([readProperty]), and the assignment [o['__proto__'] = v]
      creates no property;
    - DOM writes, [ws.send] and timer calls are recorded, in program order,
      in a list of effects; a handler is a function from the state to a new
      state, the effects it performed and either a result or the exception
      it threw.  State changes made before a throw persist, as in
      JavaScript. *)

From Stdlib Require Import QArith Lqa Floats.
From stdpp Require Import gmap strings list fin_maps sorting.

#[local] Set Warnings "-inexact-float".

Local Open Scope Q_scope.

(** ** Strings *)

Module JsString.

(** UTF-16 code units. *)
Abbreviation t := (list N).

(** A literal of the source, written with ASCII characters. *)
Definition lit (s : string) : t :=
  map (fun a => Ascii.N_of_ascii a) (String.list_ascii_of_string s).

(** ECMAScript [WhiteSpace] and [LineTerminator] code points: what the
    regular expression class [\s] matches and what [trim] strips. *)
Definition is_space (c : N) : bool :=
  ((9 <=? c) && (c <=? 13) || (c =? 32) || (c =? 160) || (c =? 5760)
   || (8192 <=? c) && (c <=? 8202) || (c =? 8232) || (c =? 8233)
   || (c =? 8239) || (c =? 8287) || (c =? 12288) || (c =? 65279))%N.

Fixpoint trimStart (s : t) : t :=
  match s with
  | c :: r => if is_space c then trimStart r else s
  | [] => []
  end.

(** [String.prototype.trim] *)
Definition trim (s : t) : t := reverse (trimStart (reverse (trimStart s))).

(** [s.split(/\s+/)]: the pieces between maximal runs of white space.
    [inrun] tells that the previous code unit was white space. *)
Fixpoint splitFrom (inrun : bool) (s : t) : list t :=
  match s with
  | [] => [[]]
  | c :: r =>
      if is_space c then
        if inrun then splitFrom true r else [] :: splitFrom true r
      else
        match splitFrom false r with
        | p :: ps => (c :: p) :: ps
        | [] => [[c]]
        end
  end.

Definition split_ws (s : t) : list t := splitFrom false s.

Fixpoint isPrefix (p s : t) : bool :=
  match p, s with
  | [], _ => true
  | a :: p', b :: s' => (a =? b)%N && isPrefix p' s'
  | _ :: _, [] => false
  end.

(** [s.indexOf(p) !== -1] *)
Fixpoint includes (p s : t) : bool :=
  isPrefix p s || match s with [] => false | _ :: r => includes p r end.

End JsString.

Abbreviation jsstring := JsString.t.

(** ** Numbers *)

Module Math.

(** [Math.min(a, b)]: NaN when an argument is NaN, and -0 counts as less
    than +0. *)
Definition min (a b : float) : float :=
  if PrimFloat.is_nan a || PrimFloat.is_nan b then nan
  else if (b <? a)%float then b
  else if (a <? b)%float then a
  else if PrimFloat.get_sign a then a else b.

End Math.

(** [x || d] on numbers: NaN, +0 and -0 are falsy. *)
Definition numberOr (v : float) (d : float) : float :=
  if PrimFloat.is_nan v || PrimFloat.is_zero v then d else v.

(** ** Scoring engine *)

Record Score := mkScore { acc : float; comp : float; conc : float; tone : float }.

(** The numbers [chars] and [words] of [recordScore] are lengths, hence
    natural numbers; [%] on them is the remainder of the division, and a
    remainder below 40 is a double. *)
Definition ofNat (n : nat) : float :=
  PrimFloat.of_uint63 (Uint63.of_Z (Z.of_nat n)).

(** The record that [recordScore] stores: lines 302-307 of the source. *)
Definition scoreOf (content : jsstring) : Score :=
  let words := length (JsString.split_ws content) in
  let chars := length content in
  {| acc  := Math.min 9.8 (6.5 + ofNat (chars mod 30) / 10)%float;
     comp := Math.min 9.8 (6.0 + ofNat (words mod 40) / 14)%float;
     conc := Math.min 9.8 (5.5 + ofNat (chars mod 20) / 8)%float;
     tone := Math.min 9.8 (6.5 + ofNat (words mod 20) / 10)%float |}.

(** ** Properties inherited from [Object.prototype] *)

(** The names of the members of [Object.prototype]: an object made by an
    object literal or by [JSON.parse] answers to them without owning
    them. *)
Definition objectPrototypeNames : list jsstring :=
  map JsString.lit
    ["constructor"; "__defineGetter__"; "__defineSetter__"; "hasOwnProperty";
     "__lookupGetter__"; "__lookupSetter__"; "isPrototypeOf";
     "propertyIsEnumerable"; "toString"; "valueOf"; "__proto__";
     "toLocaleString"].

Definition inheritedName (k : jsstring) : bool :=
  bool_decide (k ∈ objectPrototypeNames).
Arguments inheritedName : simpl never.

(** The one inherited member with a setter: an assignment to it replaces
    the prototype of the object and creates no property. *)
Definition protoKey : jsstring := JsString.lit "__proto__".
Arguments protoKey : simpl never.

(** What a read [o[k]] finds: a property that [o] owns, or the member of
    [Object.prototype] of that name.  Such a member is a function, or
    [Object.prototype] itself for [__proto__]: it is truthy, and of the
    fields that the page reads from what it finds ([strategy], [agents],
    [tps], [vram], [lat], [name]) it has at most [name], the name of the
    function. *)
Inductive Value (V : Type) :=
  | Own (v : V)
  | Inherited (name : jsstring).
Arguments Own {V}.
Arguments Inherited {V}.

(** [o[k]], given the own property [k] of [o] if there is one; [None] is
    undefined. *)
Definition readProperty {V} (own : option V) (k : jsstring) : option (Value V) :=
  match own with
  | Some v => Some (Own v)
  | None => if inheritedName k then Some (Inherited k) else None
  end.

(** ** Objects enumerated with [Object.keys] *)

Module JsObject.

(** Own properties in the order of their creation. *)
Abbreviation t V := (list (jsstring * V)).

Definition empty {V} : t V := [].

(** The own property [k] of [o]. *)
Fixpoint get {V} (k : jsstring) (o : t V) : option V :=
  match o with
  | [] => None
  | (k', v) :: r => if decide (k = k') then Some v else get k r
  end.

(** [o[k] = v] for a name [k] without a setter: an existing property keeps
    its place, a new one goes last. *)
Fixpoint set {V} (k : jsstring) (v : V) (o : t V) : t V :=
  match o with
  | [] => [(k, v)]
  | (k', v') :: r => if decide (k = k') then (k', v) :: r else (k', v') :: set k v r
  end.

Definition is_digit (c : N) : bool := ((48 <=? c) && (c <=? 57))%N.

Definition digitsValue (s : jsstring) : N :=
  fold_left (fun n c => (10 * n + (c - 48))%N) s 0%N.

(** An array index is a canonical decimal numeral (no sign, no leading
    zero) of value at most 2^32 - 2. *)
Definition arrayIndex (k : jsstring) : option N :=
  match k with
  | [] => None
  | c :: r =>
      if forallb is_digit k && (negb (c =? 48)%N || bool_decide (r = []))
         && (digitsValue k <? 4294967295)%N
      then Some (digitsValue k) else None
  end.

(** Stable insertion sort: [before y x] tells that [y] has to come strictly
    before [x]. *)
Fixpoint insertBy {A} (before : A → A → bool) (x : A) (l : list A) : list A :=
  match l with
  | [] => [x]
  | y :: r => if before y x then y :: insertBy before x r else x :: y :: r
  end.

Definition sortBy {A} (before : A → A → bool) (l : list A) : list A :=
  foldr (insertBy before) [] l.

Definition indexed {V} (o : t V) : list (N * (jsstring * V)) :=
  omap (fun kv => (fun n => (n, kv)) <$> arrayIndex kv.1) o.

(** [OrdinaryOwnPropertyKeys]: the array indices in ascending numeric
    order, then the other string keys in the order of their creation. *)
Definition entries {V} (o : t V) : list (jsstring * V) :=
  map snd (sortBy (fun a b => (a.1 <? b.1)%N) (indexed o))
  ++ filter (fun kv => arrayIndex kv.1 = None) o.

(** [Object.keys(o)] *)
Definition keys {V} (o : t V) : list jsstring := map fst (entries o).

End JsObject.

(** ** Data model *)

Record Council := mkCouncil {
  name : option jsstring;
  strategy : option jsstring;
  agents : option (list jsstring) }.

(** [WebSocket.readyState] *)
Inductive ReadyState := CONNECTING | OPEN | CLOSING | CLOSED.

(** The global [state] object. *)
Record State := mkState {
  ws : option ReadyState;
  councils : gmap jsstring Council;
  selectedCouncil : jsstring;
  isRunning : bool;
  agentColors : gmap jsstring positive;
  nextColorIndex : positive;
  sessionStart : option N;
  timerInterval : option positive;
  scores : JsObject.t Score }.

(** Inbound events, by their [type] tag, with the fields [handleEvent]
    reads.  A field is [None] when the message does not have it. *)
Inductive Event :=
  | Status (content : option jsstring)
  | RoundStart (round : option Q) (total_rounds : option Q)
  | AgentDone (agent content model : option jsstring)
  | ModeratorDone (content model : option jsstring)
  | Error (content : option jsstring)
  | CouncilDone
  | Other   (** any other [type], or a value without one *)
  | Null.   (** the JSON value [null]: reading [e.type] throws *)

(** What the handlers read from the page and the browser when they run. *)
Record Env := mkEnv {
  inputValue : jsstring;          (** value of [#chat-input] *)
  welcomeShown : bool;            (** [#welcome] exists *)
  now : N;                        (** [Date.now()] *)
  freshTimer : positive;          (** id that [setInterval] returns *)
  rubricA : float;                (** [Number(#rubric-a.value)] *)
  rubricC : float;
  rubricK : float;
  rubricT : float }.

Record Rubric := mkRubric { wa : float; wc : float; wk : float; wt : float }.

Record Row := mkRow {
  role : jsstring; overall : float;
  rowAcc : float; rowComp : float; rowConc : float; rowTone : float }.

(** The class of a card: [moderator], or [agent-color-] followed by what
    [colorIndex] returned. *)
Inductive CardClass := ModeratorCard | AgentColor (idx : Value positive).

(** Elements appended to [#chat-messages]. *)
Inductive Node :=
  | UserMessage (text : jsstring)
  | RoundSeparator (round : option Q) (total : option Q)
  | StatusMessage (spinner : bool) (text : jsstring)
  | ErrorMessage (text : jsstring)
  | AgentCard (cls : CardClass) (role : jsstring) (model : option jsstring)
      (content : jsstring).

Inductive Effect :=
  | Append (n : Node)                         (** [appendMessage] *)
  | ScoreList (rows : list Row)               (** rows written to [#score-list] *)
  | ScoreListEmpty                            (** the "Run a prompt" notice *)
  | Send (council task : jsstring)            (** [state.ws.send] of a task *)
  | SetInterval (id : positive)
  | ClearInterval (id : positive)
  | InputDisabled (disabled : bool)           (** [updateInputState] *)
  | HideWelcome
  | ClearInput
  | ResetChat
  | ClearTimerText
  | CouncilShown (key : jsstring) (c : Value Council).
      (** the topbar, the strategy pill and the active button, written from
          the fields of [c] *)

Inductive Exn := SyntaxError | TypeError.

(** ** Handlers as state transformers that log effects and may throw *)

Record Outcome (A : Type) := mkOutcome {
  post : State;
  effects : list Effect;
  result : Exn + A }.
Arguments mkOutcome {A}.
Arguments post {A}.
Arguments effects {A}.
Arguments result {A}.

Definition M (A : Type) : Type := State → Outcome A.

Definition ret {A} (a : A) : M A := fun s => mkOutcome s [] (inr a).

Definition bind {A B} (m : M A) (k : A → M B) : M B := fun s =>
  match m s with
  | mkOutcome s1 e1 (inl e) => mkOutcome s1 e1 (inl e)
  | mkOutcome s1 e1 (inr a) =>
      match k a s1 with
      | mkOutcome s2 e2 r => mkOutcome s2 (e1 ++ e2) r
      end
  end.

Definition throw {A} (e : Exn) : M A := fun s => mkOutcome s [] (inl e).
Definition emit (e : Effect) : M unit := fun s => mkOutcome s [e] (inr tt).
Definition get : M State := fun s => mkOutcome s [] (inr s).
Definition modify (f : State → State) : M unit := fun s => mkOutcome (f s) [] (inr tt).

(** [try { m } catch (_) {}] *)
Definition tryCatch (m : M unit) : M unit := fun s =>
  match m s with
  | mkOutcome s1 e1 _ => mkOutcome s1 e1 (inr tt)
  end.

Declare Scope js_scope.
Delimit Scope js_scope with js.
Notation "x <- m ; k" := (bind m (fun x => k))
  (at level 100, m at next level, right associativity) : js_scope.
Notation "m ;; k" := (bind m (fun _ => k))
  (at level 100, right associativity) : js_scope.
Local Open Scope js_scope.

(** Assignments to the fields of [state]. *)
Definition setSelectedCouncil (k : jsstring) (s : State) : State :=
  mkState (ws s) (councils s) k (isRunning s) (agentColors s)
    (nextColorIndex s) (sessionStart s) (timerInterval s) (scores s).
Definition setIsRunning (b : bool) (s : State) : State :=
  mkState (ws s) (councils s) (selectedCouncil s) b (agentColors s)
    (nextColorIndex s) (sessionStart s) (timerInterval s) (scores s).
Definition setColors (m : gmap jsstring positive) (n : positive) (s : State) : State :=
  mkState (ws s) (councils s) (selectedCouncil s) (isRunning s) m
    n (sessionStart s) (timerInterval s) (scores s).
Definition setSessionStart (t : option N) (s : State) : State :=
  mkState (ws s) (councils s) (selectedCouncil s) (isRunning s) (agentColors s)
    (nextColorIndex s) t (timerInterval s) (scores s).
Definition setTimerInterval (t : option positive) (s : State) : State :=
  mkState (ws s) (councils s) (selectedCouncil s) (isRunning s) (agentColors s)
    (nextColorIndex s) (sessionStart s) t (scores s).
Definition setScores (o : JsObject.t Score) (s : State) : State :=
  mkState (ws s) (councils s) (selectedCouncil s) (isRunning s) (agentColors s)
    (nextColorIndex s) (sessionStart s) (timerInterval s) o.

(** The object literal that initialises [state]. *)
Definition initialState : State :=
  mkState None ∅ (JsString.lit "general") false ∅ 1%positive None None
    JsObject.empty.

(** *** Messages *)

Definition appendMessage (n : Node) : M unit := emit (Append n).

Definition addUserMessage (text : jsstring) : M unit :=
  appendMessage (UserMessage text).

(** [total ? ... : ...]: a missing or zero total is left out. *)
Definition addRoundSeparator (round total : option Q) : M unit :=
  appendMessage (RoundSeparator round
    (match total with
     | Some t => if Qeq_bool t 0 then None else Some t
     | None => None
     end)).

(** [text.indexOf] throws when [text] is undefined. *)
Definition addStatus (text : option jsstring) : M unit :=
  match text with
  | None => throw TypeError
  | Some t =>
      let done := JsString.includes (JsString.lit "complete") t in
      appendMessage (StatusMessage (negb done) t)
  end.

Definition addError (text : jsstring) : M unit :=
  appendMessage (ErrorMessage text).

(** *** Colour assigner *)

(** [(n % 5) + 1] *)
Definition nextIndex (n : positive) : positive := N.succ_pos (N.pos n mod 5).

(** [!state.agentColors[role]] holds when the read finds nothing, neither
    an own property (a palette index, never 0) nor an inherited member;
    what is returned is read again after the assignment. *)
Definition colorIndex (role : jsstring) : M (Value positive) :=
  s <- get;
  match readProperty (agentColors s !! role) role with
  | Some v => ret v
  | None =>
      modify (setColors (<[role := nextColorIndex s]> (agentColors s))
                        (nextIndex (nextColorIndex s)));;
      ret (Own (nextColorIndex s))
  end.

(** A property key made from a value that may be undefined. *)
Definition keyOf (v : option jsstring) : jsstring :=
  match v with Some k => k | None => JsString.lit "undefined" end.

(** [x || d] on strings: the empty string is falsy. *)
Definition orElse (x : jsstring) (d : jsstring) : jsstring :=
  match x with [] => d | _ => x end.

Definition truthyString (x : option jsstring) : option jsstring :=
  match x with Some (c :: r) => Some (c :: r) | _ => None end.

(** The markup of a card (initials, time, cosmetic statistics) is left
    out; [role.split] throws when [role] is undefined, after [colorIndex]
    has run. *)
Definition addAgentCard (role model : option jsstring) (content : jsstring)
    (isModerator : bool) : M unit :=
  cls <- (if isModerator then ret ModeratorCard
          else (idx <- colorIndex (keyOf role); ret (AgentColor idx)));
  match role with
  | None => throw TypeError
  | Some r => appendMessage (AgentCard cls r (truthyString model) content)
  end.

(** *** Scoreboard *)

(** [state.scores[role] = {...}]: the record becomes the own property
    [role] of [state.scores], except for the name [__proto__], whose setter
    makes the record the prototype of [state.scores] and creates no
    property.  Nothing reads [state.scores] through its prototype: the rows
    of the ranking come from [Object.keys], which lists own properties, and
    [state.scores[role]] is read for those names only. *)
Definition recordScore (role : jsstring) (content : jsstring) : M unit :=
  if decide (role = protoKey) then ret tt
  else modify (fun s => setScores (JsObject.set role (scoreOf content) (scores s)) s).

(** [Number(value) || d] for the four sliders. *)
Definition getRubric (env : Env) : Rubric :=
  {| wa := numberOr (rubricA env) 45;
     wc := numberOr (rubricC env) 25;
     wk := numberOr (rubricK env) 15;
     wt := numberOr (rubricT env) 15 |}.

(** [rubric.a + rubric.c + rubric.k + rubric.t || 1] *)
Definition totalWeight (r : Rubric) : float :=
  numberOr (wa r + wc r + wk r + wt r)%float 1.

(** Line 334, in the arithmetic of doubles, each operation rounded. *)
Definition rowOf (r : Rubric) (kv : jsstring * Score) : Row :=
  let s := kv.2 in
  {| role := kv.1;
     overall := ((acc s * wa r + comp s * wc r + conc s * wk r + tone s * wt r)
                 / totalWeight r)%float;
     rowAcc := acc s; rowComp := comp s; rowConc := conc s; rowTone := tone s |}.

(** [a] is put before [b] when the comparator of line 337 returns a
    negative number for them: [b.overall - a.overall < 0].  A comparator
    that returns NaN counts as returning 0. *)
Definition ranksBefore (a b : Row) : bool := (overall b - overall a <? 0)%float.

(** Lines 330-337: the rows in the order [rows.sort] leaves them.  The
    record [state.scores[role]] of an enumerated [role] is the value of that
    own property.  [Array.prototype.sort] is a stable sort, so its result is
    determined as soon as the comparator is consistent on the rows, which
    it is when no overall is NaN ([ranksBefore_ord] below); with a NaN among
    the overalls the language leaves the order to the implementation, and
    [rank] is then the order of an insertion sort. *)
Definition rank (sc : JsObject.t Score) (r : Rubric) : list Row :=
  JsObject.sortBy ranksBefore (map (rowOf r) (JsObject.entries sc)).

Definition renderScoreboard (env : Env) : M unit :=
  s <- get;
  emit (ScoreList (rank (scores s) (getRubric env))).

(** *** Timer and input *)

Definition updateInputState : M unit :=
  s <- get; emit (InputDisabled (isRunning s)).

Definition stopTimer : M unit :=
  s <- get;
  match timerInterval s with
  | Some id => emit (ClearInterval id);; modify (setTimerInterval None)
  | None => ret tt
  end.

Definition startTimer (env : Env) : M unit :=
  modify (setSessionStart (Some (now env)));;
  s <- get;
  match timerInterval s with
  | Some id => emit (ClearInterval id)
  | None => ret tt
  end;;
  emit (SetInterval (freshTimer env));;
  modify (setTimerInterval (Some (freshTimer env))).

(** *** Council selection *)

(** The assignment comes first; the display is updated when
    [state.councils[key]] is truthy: for a key of [state.councils] (the
    councils of a configuration are objects) and for a name that the
    object inherits. *)
Definition selectCouncil (key : jsstring) : M unit :=
  modify (setSelectedCouncil key);;
  s <- get;
  match readProperty (councils s !! key) key with
  | None => ret tt
  | Some council => emit (CouncilShown key council)
  end.

(** *** Task submission *)

Definition wsOpen (s : State) : bool :=
  match ws s with Some OPEN => true | _ => false end.

Definition sendTask (env : Env) : M unit :=
  s <- get;
  if isRunning s then ret tt else
  let task := JsString.trim (inputValue env) in
  match task with
  | [] => ret tt
  | _ :: _ =>
      if negb (wsOpen s) then addError (JsString.lit "WebSocket not connected.")
      else
        (if welcomeShown env then emit HideWelcome else ret tt);;
        modify (setColors ∅ 1%positive);;
        modify (setScores JsObject.empty);;
        addUserMessage task;;
        emit (Send (selectedCouncil s) task);;
        emit ClearInput;;
        modify (setIsRunning true);;
        updateInputState;;
        startTimer env
  end.

(** *** Event dispatch *)

Definition noResponse : jsstring := JsString.lit "[No response]".

(** [(e.content || '').trim() || '[No response]'] *)
Definition visibleContent (content : option jsstring) : jsstring :=
  orElse (JsString.trim (default [] content)) noResponse.

Definition handleEvent (env : Env) (e : Event) : M unit :=
  match e with
  | Null => throw TypeError
  | Status content => addStatus content
  | RoundStart round total => addRoundSeparator round total
  | AgentDone agent content model =>
      let content := visibleContent content in
      addAgentCard agent model content false;;
      recordScore (keyOf agent) content
  | ModeratorDone content model =>
      let content := visibleContent content in
      addAgentCard (Some (JsString.lit "Moderator")) model content true
  | Error content =>
      modify (setIsRunning false);;
      updateInputState;; stopTimer;;
      addError (orElse (default [] content) (JsString.lit "Unknown error"))
  | CouncilDone =>
      modify (setIsRunning false);;
      updateInputState;; stopTimer;;
      renderScoreboard env;;
      addStatus (Some (JsString.lit "Session complete"))
  | Other => ret tt
  end.

(** *** Clearing the session *)

Definition clearChat : M unit :=
  emit ResetChat;;
  modify (setColors ∅ 1%positive);;
  modify (setScores JsObject.empty);;
  emit ScoreListEmpty;;
  stopTimer;;
  emit ClearTimerText.

(** *** The WebSocket message handler *)

Section Transport.

(** [JSON.parse] followed by the reading of the fields: [None] when the
    payload is not valid JSON and [JSON.parse] throws. *)
Variable JSON_parse : jsstring → option Event.

Definition parseData (data : jsstring) : M Event :=
  match JSON_parse data with
  | Some e => ret e
  | None => throw SyntaxError
  end.

(** [try { handleEvent(JSON.parse(evt.data)); } catch (_) {}] *)
Definition onmessage (env : Env) (data : jsstring) : M unit :=
  tryCatch (e <- parseData data; handleEvent env e).

End Transport.

(** *** Runs of the event handler *)

(** The handler as the transport calls it, exceptions caught. *)
Definition deliver (s : State) (ee : Env * Event) : Outcome unit :=
  tryCatch (handleEvent ee.1 ee.2) s.


Definition finalState (s : State) (l : list (Env * Event)) : State :=
  fold_left (fun s ee => post (deliver s ee)) l s.


Definition isClearInterval (e : Effect) : bool :=
  match e with ClearInterval _ => true | _ => false end.

(** The number of [clearInterval] calls of a delivery. *)
Definition clockStops (step : State * Outcome unit) : nat :=
  length (filter (fun e => isClearInterval e = true) (effects step.2)).



(** The calls [colorIndex(r)] for the names of [l], in order. *)
Fixpoint colorIndexAll (l : list jsstring) (s : State) : State :=
  match l with
  | [] => s
  | r :: l' => colorIndexAll l' (post (colorIndex r s))
  end.

(** *** Concrete inputs used in the examples below *)

Definition generalCouncil : Council :=
  mkCouncil (Some (JsString.lit "General")) (Some (JsString.lit "debate"))
    (Some [JsString.lit "Analyst"; JsString.lit "Critic"]).

(** The configuration is loaded, the socket is open, no task runs. *)
Definition readyState : State :=
  mkState (Some OPEN) {[ JsString.lit "general" := generalCouncil ]}
    (JsString.lit "general") false ∅ 1%positive None None JsObject.empty.

Definition disconnectedState : State :=
  mkState (Some CLOSED) {[ JsString.lit "general" := generalCouncil ]}
    (JsString.lit "general") false ∅ 1%positive None None JsObject.empty.

(** The text "X" is typed and the sliders are at 45, 25, 15, 15. *)
Definition sampleEnv : Env :=
  mkEnv (JsString.lit "X") true 1000%N 7%positive 45 25 15 15.

(** [readyState] after the task "X" has been submitted. *)
Definition runningState : State := post (sendTask sampleEnv readyState).

(** The scores and weights of the ranking example. *)
Definition scoresAB : JsObject.t Score :=
  [(JsString.lit "A", mkScore 8 7 6 7); (JsString.lit "B", mkScore 7 8 8 6)].

Definition rubric100 : Rubric := mkRubric 45 25 15 15.

(** Two agents named "2" and "1" answer, in this order, with the same
    text. *)
Definition numberedScores : JsObject.t Score :=
  scores (post (recordScore (JsString.lit "1") (JsString.lit "ok")
    (post (recordScore (JsString.lit "2") (JsString.lit "ok") readyState)))).

(** A text of 20 characters in one word: its conciseness is 5.5. *)
Definition twentyChars : jsstring := JsString.lit "abcdefghijklmnopqrst".

(** Sliders that give three weights of 2^-200 and one just above 1.5. *)
Definition skewedEnv : Env :=
  mkEnv (JsString.lit "X") true 1000%N 7%positive
    0x1p-200 0x1p-200 0x1.8000000000005p0 0x1p-200.

(** The sliders as the page has them before they are moved, and with one
    of them at 0. *)
Definition zeroSliderEnv : Env :=
  mkEnv (JsString.lit "X") true 1000%N 7%positive 0 25 15 15.

(** A parser that knows the empty object and nothing else. *)
Definition parseEmptyObject (data : jsstring) : option Event :=
  if decide (data = JsString.lit "{}") then Some Other else None.

(** The names of a list that are not names of members of
    [Object.prototype]: the names that can be given a colour. *)
Definition assignable (l : list jsstring) : list jsstring :=
  filter (fun r => inheritedName r = false) l.

(** The order of first appearance of the names of a list, after the names
    of [seen]. *)
Fixpoint firstSeenAfter (seen l : list jsstring) : list jsstring :=
  match l with
  | [] => seen
  | r :: l' => firstSeenAfter (if decide (r ∈ seen) then seen else seen ++ [r]) l'
  end.


(** The palette index of the [k]-th distinct name, counting from 0. *)
Definition paletteIndex (k : nat) : positive := Pos.of_nat (k mod 5 + 1).

(** The agent names that the delivery of an event passes to [colorIndex]. *)
Definition colouredBy (e : Event) : list jsstring :=
  match e with
  | AgentDone agent _ _ => [keyOf agent]
  | _ => []
  end.


(** The state of the colour assigner when [names] are the distinct names
    seen so far, in the order of their first appearance. *)
Definition coloured (names : list jsstring) (s : State) : Prop :=
  NoDup names /\
  Forall (fun r => inheritedName r = false) names /\
  (∀ k r, names !! k = Some r → agentColors s !! r = Some (paletteIndex k)) /\
  (∀ r, r ∉ names → agentColors s !! r = None) /\
  nextColorIndex s = paletteIndex (length names).


(** Rows whose overall score equals [v], as doubles. *)
Definition tiedAt (v : float) (r : Row) : Prop := (overall r =? v)%float = true.

#[global] Instance tiedAt_dec v r : Decision (tiedAt v r).
Proof. unfold tiedAt. apply _. Defined.

(** Every record of [state.scores] was computed by [recordScore]. *)
Definition scoredByRecordScore (sc : JsObject.t Score) : Prop :=
  Forall (fun kv => ∃ content, kv.2 = scoreOf content) sc.

(** A row whose overall score is a number. *)
Definition isNumber (r : Row) : Prop := PrimFloat.is_nan (overall r) = false.

(** ** Doubles and their order *)

(** An order embedding into the integers of the doubles that are not NaN,
    on their specification as sign, mantissa and exponent: a finite double
    is a multiple of 2^-1074 below 2^1024, and the two zeros are equal. *)
Definition SFord (x : spec_float) : Z :=
  match x with
  | S754_zero _ => 0
  | S754_nan => 0
  | S754_infinity s => cond_Zopp s (2 ^ 2200)
  | S754_finite s m e => cond_Zopp s (Z.pos m * 2 ^ (e + 1074))
  end.

Definition ord (x : float) : Z := SFord (Prim2SF x).

(** A finite double or an infinity of sign [s]. *)
Definition signed (s : bool) (x : spec_float) : Prop :=
  match x with
  | S754_finite s' _ _ | S754_infinity s' => s' = s
  | _ => False
  end.

(** The rational number that a finite double is. *)
Definition exact (x : float) : Q :=
  match Prim2SF x with
  | S754_finite s m e => inject_Z (cond_Zopp s (Z.pos m)) * Qpower 2 e
  | _ => 0
  end.

(** The record of a text of [chars] code units that splits into [words]
    pieces. *)
Definition scoreAt (chars words : nat) : Score :=
  {| acc  := Math.min 9.8 (6.5 + ofNat (chars mod 30) / 10)%float;
     comp := Math.min 9.8 (6.0 + ofNat (words mod 40) / 14)%float;
     conc := Math.min 9.8 (5.5 + ofNat (chars mod 20) / 8)%float;
     tone := Math.min 9.8 (6.5 + ofNat (words mod 20) / 10)%float |}.

(** The overall score of a record under the weights [r]. *)
Definition overallOf (r : Rubric) (sc : Score) : float :=
  overall (rowOf r (JsString.lit "", sc)).

(** The checks that are made on all the records there are: a sub-score
    lies in [0, 10) and between [lo] and [hi], and the rational that it is
    is at least [qlo]. *)
Definition subScoreChecked (lo hi : float) (qlo : Q) (x : float) : bool :=
  (0 <=? x)%float && (x <? 10)%float && (lo <=? x)%float && (x <=? hi)%float
  && Qle_bool qlo (exact x).

Definition subScoresChecked (chars words : nat) : bool :=
  let sc := scoreAt chars words in
  subScoreChecked 6.5 9.4 6.5 (acc sc) && subScoreChecked 6 8.8 6 (comp sc)
  && subScoreChecked 5.5 7.875 5.5 (conc sc) && subScoreChecked 6.5 8.4 6.5 (tone sc).

Definition defaultOverallChecked (chars words : nat) : bool :=
  let x := overallOf rubric100 (scoreAt chars words) in
  ((5.5 <=? x) && (6.2 <=? x) && (x <=? 8.9))%float.

(** [check] holds of all the pairs below [n] and [m]. *)
Definition allBelow (n m : nat) (check : nat → nat → bool) : bool :=
  forallb (fun i => forallb (check i) (seq 0 m)) (seq 0 n).

(** The events that end a session. *)
Definition isTerminal (e : Event) : bool :=
  match e with Error _ | CouncilDone => true | _ => false end.

(** ** The rest of the page's code *)

(** *** Numbers as text *)

(** The decimal digits of [n], least significant first. *)
Fixpoint digitsLE (fuel : nat) (n : N) : list N :=
  match fuel with
  | O => []
  | S f => (n mod 10)%N :: (if (n <? 10)%N then [] else digitsLE f (n / 10)%N)
  end.

(** [String(n)] for a natural number: a number below [2^k] has at most [k]
    digits. *)
Definition decimal (n : N) : jsstring :=
  reverse (map (N.add 48) (digitsLE (S (N.to_nat (N.log2 n))) n)).

(** [String(z)] for an integer. *)
Definition numberToString (z : Z) : jsstring :=
  if (z <? 0)%Z then 45%N :: decimal (Z.to_N (- z)) else decimal (Z.to_N z).

(** [pad]: line 464. *)
Definition pad (n : Z) : jsstring :=
  if (n <? 10)%Z then JsString.lit "0" ++ numberToString n else numberToString n.

(** The text that the interval callback of [startTimer] writes to
    [#session-timer] when [Date.now()] is [now]: [Math.floor] of a quotient
    is [Z.div], [%] is [Z.rem]; a null [sessionStart] counts as 0. *)
Definition timerText (now : N) (s : State) : jsstring :=
  let secs := ((Z.of_N now - Z.of_N (default 0%N (sessionStart s))) / 1000)%Z in
  pad (secs / 60)%Z ++ JsString.lit ":" ++ pad (Z.rem secs 60).

(** *** Cosmetic statistics of an agent card *)

Record AgentStats := mkAgentStats {
  statTps : jsstring; statVram : jsstring; statLat : jsstring }.

(** [role.charCodeAt(0) || 65]: NaN (empty name) and 0 give 65. *)
Definition statSeed (role : jsstring) : N :=
  match role with
  | c :: _ => if (c =? 0)%N then 65%N else c
  | [] => 65%N
  end.

(** The record that [getAgentStats] computes on a cache miss;
    [toFixed(1)] of an integer appends ".0". *)
Definition statsOf (role : jsstring) : AgentStats :=
  let seed := statSeed role in
  {| statTps := decimal (20 + (seed * 7) mod 40) ++ JsString.lit ".0";
     statVram := decimal (3 + (seed * 3) mod 9) ++ JsString.lit ".0 GB";
     statLat := decimal (80 + (seed * 11) mod 160) ++ JsString.lit " ms" |}.

(** [getAgentStats], with the global [agentStatCache] passed along: the
    record is computed when the read [agentStatCache[role]] finds nothing,
    and what is returned is read again.  The fields of an inherited member
    are undefined. *)
Definition getAgentStats (role : jsstring) (cache : gmap jsstring AgentStats)
    : Value AgentStats * gmap jsstring AgentStats :=
  match readProperty (cache !! role) role with
  | Some v => (v, cache)
  | None => (Own (statsOf role), <[role := statsOf role]> cache)
  end.

(** The calls [getAgentStats(r)] for the names of [l], in order. *)
Definition getAgentStatsAll (l : list jsstring) (cache : gmap jsstring AgentStats)
    : gmap jsstring AgentStats :=
  fold_left (fun c r => (getAgentStats r c).2) l cache.

(** *** System gauges *)

(** The global [hudData]. *)
Record HudData := mkHudData {
  hudCpu : Q; hudGpu : Q; hudVram : Q; hudRam : Q; hudTps : Q }.

(** The [system] object of a health response; a field is [None] when it
    is missing or null. *)
Record SystemInfo := mkSystemInfo {
  sysCpu : option Q; sysRam : option Q; sysGpu : option Q; sysVram : option Q }.

Definition initialHud : HudData := mkHudData 0 0 0 0 0.

(** The assignments of [fetchHud]; [d.system || {}] has no field when
    [system] is missing. *)
Definition fetchHud (system : option SystemInfo) (h : HudData) : HudData :=
  let sys := default (mkSystemInfo None None None None) system in
  {| hudCpu := default (hudCpu h) (sysCpu sys);
     hudRam := default (hudRam h) (sysRam sys);
     hudGpu := default (hudGpu h) (sysGpu sys);
     hudVram := default (hudVram h) (sysVram sys);
     hudTps := hudTps h |}.

(** *** Effects of the code outside the session handlers *)

Inductive PageEffect :=
  | Core (e : Effect)
  | CouncilList (cs : gmap jsstring Council) (selected : jsstring)
      (** [renderCouncilList]: one button per council, the selected one active *)
  | ConnIndicator (ok : bool)                 (** [setConn] *)
  | ReconnectIn (ms : N)                      (** [setTimeout(connectWs, ms)] *)
  | NewWebSocket                              (** [new WebSocket(...)] *)
  | RubricLabels.                             (** the slider labels of [updateRubric] *)

Definition core (o : Outcome unit) : State * list PageEffect :=
  (post o, map Core (effects o)).

Definition setWs (w : option ReadyState) (s : State) : State :=
  mkState w (councils s) (selectedCouncil s) (isRunning s) (agentColors s)
    (nextColorIndex s) (sessionStart s) (timerInterval s) (scores s).
Definition setCouncils (cs : gmap jsstring Council) (s : State) : State :=
  mkState (ws s) cs (selectedCouncil s) (isRunning s) (agentColors s)
    (nextColorIndex s) (sessionStart s) (timerInterval s) (scores s).

(** *** Rubric sliders *)

(** [updateRubric]: the ranking is rendered again when there is a score. *)
Definition updateRubric (env : Env) (s : State) : State * list PageEffect :=
  let o := (if bool_decide (JsObject.keys (scores s) = []) then ret tt
            else renderScoreboard env) s in
  (post o, RubricLabels :: map Core (effects o)).

(** *** Configuration *)

(** The response of [/api/config]: [councils] and [defaults.council]. *)
Record Config := mkConfig {
  cfgCouncils : option (gmap jsstring Council);
  cfgDefault : option jsstring }.

(** The callback of [loadConfig] for a response. *)
Definition loadConfigThen (cfg : Config) (s : State) : State * list PageEffect :=
  let s1 := setCouncils (default ∅ (cfgCouncils cfg)) s in
  let s2 := setSelectedCouncil
              (orElse (default [] (cfgDefault cfg)) (JsString.lit "general")) s1 in
  let o := selectCouncil (selectedCouncil s2) s2 in
  (post o, CouncilList (councils s2) (selectedCouncil s2) :: map Core (effects o)).

(** The [catch] of [loadConfig], with [err.message]. *)
Definition loadConfigCatch (message : jsstring) (s : State)
    : State * list PageEffect :=
  core (addError (JsString.lit "Failed to load config: " ++ message) s).

(** *** Connection *)

(** [connectWs]: [state.ws] becomes a new socket, which is connecting. *)
Definition connectWs (s : State) : State * list PageEffect :=
  (setWs (Some CONNECTING) s, [NewWebSocket]).

Definition onopen (s : State) : State * list PageEffect :=
  (s, [ConnIndicator true]).
Definition onclose (s : State) : State * list PageEffect :=
  (s, [ConnIndicator false; ReconnectIn 2000]).
Definition onerror (s : State) : State * list PageEffect :=
  (s, [ConnIndicator false]).

(** *** Everything that can happen to the page *)

Inductive Action :=
  | Submit (env : Env)                  (** [sendTask] *)
  | Deliver (env : Env) (e : Event)     (** a message reaches [handleEvent] *)
  | ClearSession                        (** [clearChat] *)
  | Select (key : jsstring)             (** a council button is clicked *)
  | RubricChange (env : Env)            (** [updateRubric] *)
  | ConfigLoaded (cfg : Config)
  | ConfigFailed (message : jsstring)
  | Connect                             (** [connectWs], at start or from the timeout *)
  | SocketOpened
  | SocketClosed
  | SocketFailed
  | ReadyStateChanged (r : ReadyState). (** the browser updates [state.ws.readyState] *)

Definition act (a : Action) (s : State) : State * list PageEffect :=
  match a with
  | Submit env => core (sendTask env s)
  | Deliver env e => core (deliver s (env, e))
  | ClearSession => core (clearChat s)
  | Select key => core (selectCouncil key s)
  | RubricChange env => updateRubric env s
  | ConfigLoaded cfg => loadConfigThen cfg s
  | ConfigFailed message => loadConfigCatch message s
  | Connect => connectWs s
  | SocketOpened => onopen s
  | SocketClosed => onclose s
  | SocketFailed => onerror s
  | ReadyStateChanged r =>
      (match ws s with Some _ => setWs (Some r) s | None => s end, [])
  end.

Fixpoint actAll (l : list Action) (s : State) : State * list PageEffect :=
  match l with
  | [] => (s, [])
  | a :: r => ((actAll r (act a s).1).1, (act a s).2 ++ (actAll r (act a s).1).2)
  end.

(** An action that delivers [error] or [council_done]. *)
Definition endsSession (a : Action) : bool :=
  match a with Deliver _ e => isTerminal e | _ => false end.

(** The interval timers that are active after the effects [l], when
    [live] were active before. *)
Definition liveTimers (live : list positive) (l : list PageEffect) : list positive :=
  fold_left (fun live e =>
               match e with
               | Core (SetInterval id) => id :: live
               | Core (ClearInterval id) => filter (fun i => i ≠ id) live
               | _ => live
               end) l live.

(** The visible text of the last [agent_done] of agent [a] in a run. *)
Definition answerOf (a : jsstring) (ee : Env * Event) : option jsstring :=
  match ee.2 with
  | AgentDone (Some a') c _ => if decide (a' = a) then Some (visibleContent c) else None
  | _ => None
  end.

Definition lastAnswer (a : jsstring) (l : list (Env * Event)) : option jsstring :=
  last (omap (answerOf a) l).

(** What a row shows besides the overall score. *)
Definition subScores (r : Row) : jsstring * float * float * float * float :=
  (role r, rowAcc r, rowComp r, rowConc r, rowTone r).

(** The events that only add a line or a card to the conversation, or
    nothing at all. *)
Definition informational (e : Event) : bool :=
  match e with
  | Status _ | RoundStart _ _ | ModeratorDone _ _ | Other | Null => true
  | _ => false
  end.

Definition isSend (e : Effect) : bool :=
  match e with Send _ _ => true | _ => false end.

Definition notSpace (u : N) : Prop := JsString.is_space u = false.
Definition allSpace (t : jsstring) : Prop :=
  Forall (fun u => JsString.is_space u = true) t.

Definition isTaskSent (e : PageEffect) : bool :=
  match e with Core (Send _ _) => true | _ => false end.

Definition optionList {A} (o : option A) : list A :=
  match o with Some x => [x] | None => [] end.

(** The clock of a session: the interval that [state.timerInterval] holds
    is the only one alive, and it is alive only while a session runs. *)
Definition clockInvariant (s : State) (live : list positive) : Prop :=
  live = optionList (timerInterval s) /\
  (is_Some (timerInterval s) → isRunning s = true /\ is_Some (sessionStart s)).

(** The colour map and the score map of a session fit together: the
    colours are those of the names seen so far, each scored agent has one
    record, made by [recordScore], no record is called [__proto__], and a
    scored agent has a colour unless its name is that of a member of
    [Object.prototype]. *)
Definition sessionConsistent (s : State) : Prop :=
  (∃ names, coloured names s) /\
  NoDup (map fst (scores s)) /\
  scoredByRecordScore (scores s) /\
  Forall (fun kv => kv.1 ≠ protoKey /\
                    (inheritedName kv.1 = false → is_Some (agentColors s !! kv.1)))
    (scores s).

(** A slider that counts with its default [d]: it is at [d], at zero, or
    its value is not a number. *)
Definition atDefault (d v : float) : Prop :=
  v = d ∨ PrimFloat.is_zero v = true ∨ PrimFloat.is_nan v = true.

(** The number that digits, least significant first, stand for. *)
Definition valueLE (l : list N) : N := foldr (fun d n => (d + 10 * n)%N) 0%N l.

Definition isDigit (u : N) : Prop := JsObject.is_digit u = true.

(** The cache holds what [statsOf] computes, and nothing under the name
    of a member of [Object.prototype]. *)
Definition cacheConsistent (cache : gmap jsstring AgentStats) : Prop :=
  ∀ r st, cache !! r = Some st → st = statsOf r /\ inheritedName r = false.

(** The delays of the reconnections that a list of effects schedules. *)
Definition reconnectDelays (l : list PageEffect) : list N :=
  omap (fun e => match e with ReconnectIn ms => Some ms | _ => None end) l.

Definition isSocketClosed (a : Action) : bool :=
  match a with SocketClosed => true | _ => false end.

(** The successive health responses, applied to the gauges. *)
Definition fetchHudAll (l : list (option SystemInfo)) (h : HudData) : HudData :=
  fold_left (fun h d => fetchHud d h) l h.

(** The last value that the responses of [l] report for a metric. *)
Definition lastReported (metric : SystemInfo → option Q)
    (l : list (option SystemInfo)) : option Q :=
  last (omap (fun d => d ≫= metric) l).

(** *** Escaping and formatting of a card's body *)

(** [escapeHtml]: the text is put into an element with [textContent] and
    read back with [innerHTML], which serialises a text node by replacing
    the ampersand, the no-break space and the two angle brackets. *)
Fixpoint escapeHtml (s : jsstring) : jsstring :=
  match s with
  | [] => []
  | u :: r =>
      (if (u =? 38)%N then JsString.lit "&amp;"
       else if (u =? 160)%N then JsString.lit "&nbsp;"
       else if (u =? 60)%N then JsString.lit "&lt;"
       else if (u =? 62)%N then JsString.lit "&gt;"
       else [u]) ++ escapeHtml r
  end.

(** The canonical form of a code unit under the [i] flag of a regular
    expression without the [u] flag, for a pattern of ASCII characters:
    the letters a-z count as A-Z, and no other code unit counts as an ASCII
    character. *)
Definition canon (u : N) : N :=
  if ((97 <=? u) && (u <=? 122))%N then (u - 32)%N else u.

Fixpoint ciPrefix (p s : jsstring) : bool :=
  match p, s with
  | [], _ => true
  | a :: p', b :: s' => (canon a =? canon b)%N && ciPrefix p' s'
  | _ :: _, [] => false
  end.

(** The text before and after the first place where [p] matches in [s],
    letter case apart. *)
Fixpoint splitAtCi (p s : jsstring) {struct s} : option (jsstring * jsstring) :=
  if ciPrefix p s then Some ([], drop (length p) s)
  else match s with
       | [] => None
       | u :: r => (fun ba => (u :: ba.1, ba.2)) <$> splitAtCi p r
       end.

Definition thinkOpen : jsstring := JsString.lit "&lt;think&gt;".
Definition thinkClose : jsstring := JsString.lit "&lt;/think&gt;".

(** The two pieces of markup that the replacement function writes; 34 is
    the double quote, 10 the line feed. *)
Definition spanOpen : jsstring :=
  JsString.lit "<span class=" ++ [34%N] ++ JsString.lit "think-block"
  ++ [34%N] ++ JsString.lit ">".
Definition spanClose : jsstring := JsString.lit "</span>" ++ [10%N].

(** [html.replace(/&lt;think&gt;([\s\S]*?)&lt;\/think&gt;/gi, ...)]: the
    leftmost opening tag that has a closing tag after it, up to the first
    such closing tag, is replaced; the search goes on after the match.
    Each match is at least 27 code units long, so the length of the text is
    enough fuel. *)
Fixpoint replaceThink (fuel : nat) (html : jsstring) : jsstring :=
  match fuel with
  | O => html
  | S f =>
      match splitAtCi thinkOpen html with
      | None => html
      | Some (before, rest) =>
          match splitAtCi thinkClose rest with
          | None => html
          | Some (inner, after) =>
              before ++ spanOpen ++ inner ++ spanClose ++ replaceThink f after
          end
      end
  end.

Definition formatContent (raw : jsstring) : jsstring :=
  replaceThink (length (escapeHtml raw)) (escapeHtml raw).

(** Text without angle brackets. *)
Definition markupFree (t : jsstring) : Prop :=
  Forall (fun u => u ≠ 60%N /\ u ≠ 62%N) t.

(** Text whose only markup is the span around a think block. *)
Inductive Formatted : jsstring → Prop :=
  | FormattedText (t : jsstring) : markupFree t → Formatted t
  | FormattedThink (before inner rest : jsstring) :
      markupFree before → markupFree inner → Formatted rest →
      Formatted (before ++ spanOpen ++ inner ++ spanClose ++ rest).

(** * Properties *)

(** *** Elementary facts on the sub-scores *)

Lemma allBelow_spec (n m : nat) (check : nat → nat → bool) :
  allBelow n m check = true →
  ∀ i j, (i < n)%nat → (j < m)%nat → check i j = true.
Proof.
  unfold allBelow. rewrite List.forallb_forall. intros H i j Hi Hj.
  specialize (H i). rewrite List.forallb_forall in H.
  apply H; apply in_seq; lia.
Qed.

Lemma mod_mod_mul (n b k : nat) : ((n mod (k * b)) mod b = n mod b)%nat.
Proof.
  rewrite (Nat.div_mod_eq n (k * b)) at 2.
  replace (k * b * (n / (k * b)) + n mod (k * b))%nat
    with (n mod (k * b) + (k * (n / (k * b))) * b)%nat by lia.
  by rewrite Nat.Div0.mod_add.
Qed.

(** The record of a text depends on its length modulo 60 and on the number
    of its pieces modulo 40. *)
Lemma scoreOf_scoreAt (content : jsstring) :
  scoreOf content
  = scoreAt (length content mod 60) (length (JsString.split_ws content) mod 40).
Proof.
  unfold scoreOf, scoreAt.
  set (chars := length content). set (words := length (JsString.split_ws content)).
  rewrite (mod_mod_mul chars 30 2 : ((chars mod 60) mod 30 = chars mod 30)%nat).
  rewrite (mod_mod_mul chars 20 3 : ((chars mod 60) mod 20 = chars mod 20)%nat).
  rewrite (mod_mod_mul words 40 1 : ((words mod 40) mod 40 = words mod 40)%nat).
  rewrite (mod_mod_mul words 20 2 : ((words mod 40) mod 20 = words mod 20)%nat).
  reflexivity.
Qed.

Lemma subScoreChecked_spec (lo hi : float) (qlo : Q) (x : float) :
  subScoreChecked lo hi qlo x = true →
  ((0 <=? x) = true /\ (x <? 10) = true)%float /\
  ((lo <=? x) = true /\ (x <=? hi) = true)%float /\
  qlo <= exact x.
Proof.
  unfold subScoreChecked. rewrite !andb_true_iff, Qle_bool_iff. tauto.
Qed.

(** Every record that [recordScore] can make passes the checks: there are
    60 times 40 of them. *)
Lemma scoreOf_checked (content : jsstring) :
  ∃ chars words,
    scoreOf content = scoreAt chars words /\
    subScoresChecked chars words = true /\
    defaultOverallChecked chars words = true.
Proof.
  exists (length content mod 60)%nat, (length (JsString.split_ws content) mod 40)%nat.
  split; [apply scoreOf_scoreAt|].
  pose proof (Nat.mod_upper_bound (length content) 60 ltac:(lia)) as Hc.
  pose proof (Nat.mod_upper_bound (length (JsString.split_ws content)) 40 ltac:(lia))
    as Hw.
  split.
  - apply (allBelow_spec 60 40 subScoresChecked); [by vm_compute | done | done].
  - apply (allBelow_spec 60 40 defaultOverallChecked); [by vm_compute | done | done].
Qed.

Lemma scoreOf_bounds (content : jsstring) :
  let s := scoreOf content in
  (((0 <=? acc s) = true /\ (acc s <? 10) = true)%float /\
   ((6.5 <=? acc s) = true /\ (acc s <=? 9.4) = true)%float /\
   6.5 <= exact (acc s)) /\
  (((0 <=? comp s) = true /\ (comp s <? 10) = true)%float /\
   ((6 <=? comp s) = true /\ (comp s <=? 8.8) = true)%float /\
   6 <= exact (comp s)) /\
  (((0 <=? conc s) = true /\ (conc s <? 10) = true)%float /\
   ((5.5 <=? conc s) = true /\ (conc s <=? 7.875) = true)%float /\
   5.5 <= exact (conc s)) /\
  (((0 <=? tone s) = true /\ (tone s <? 10) = true)%float /\
   ((6.5 <=? tone s) = true /\ (tone s <=? 8.4) = true)%float /\
   6.5 <= exact (tone s)).
Proof.
  cbn zeta. destruct (scoreOf_checked content) as (chars & words & -> & Hs & _).
  unfold subScoresChecked in Hs. cbn zeta in Hs.
  rewrite !andb_true_iff in Hs. destruct Hs as (((Ha & Hc) & Hk) & Ht).
  split; [by apply subScoreChecked_spec|].
  split; [by apply subScoreChecked_spec|].
  split; by apply subScoreChecked_spec.
Qed.

(** *** The stable insertion sort *)

Section Sorting.

Context {A : Type} (before : A → A → bool).

Lemma insertBy_Permutation (x : A) (l : list A) :
  JsObject.insertBy before x l ≡ₚ x :: l.
Proof.
  induction l as [|y l IH]; cbn; [done|].
  destruct (before y x); [|done].
  rewrite IH. apply Permutation_swap.
Qed.

Lemma sortBy_cons (x : A) (l : list A) :
  JsObject.sortBy before (x :: l)
  = JsObject.insertBy before x (JsObject.sortBy before l).
Proof. reflexivity. Qed.

Lemma sortBy_Permutation (l : list A) : JsObject.sortBy before l ≡ₚ l.
Proof.
  induction l as [|x l IH]; [done|].
  rewrite sortBy_cons, insertBy_Permutation. by f_equiv.
Qed.

(** Elements that are pairwise tied keep their relative order. *)
Lemma insertBy_filter (P : A → Prop) `{∀ x, Decision (P x)} (x : A) (l : list A) :
  (∀ a b, P a → P b → before a b = false) →
  filter P (JsObject.insertBy before x l) = filter P (x :: l).
Proof.
  intros Htie. induction l as [|y l IH]; cbn; [done|].
  destruct (before y x) eqn:Hyx; [|done].
  rewrite filter_cons, IH, !filter_cons.
  destruct (decide (P y)) as [Hy|Hy]; destruct (decide (P x)) as [Hx|Hx]; try done.
  rewrite (Htie y x Hy Hx) in Hyx. done.
Qed.

Lemma sortBy_filter (P : A → Prop) `{∀ x, Decision (P x)} (l : list A) :
  (∀ a b, P a → P b → before a b = false) →
  filter P (JsObject.sortBy before l) = filter P l.
Proof.
  intros Htie. induction l as [|x l IH]; [done|].
  rewrite sortBy_cons, insertBy_filter by done. rewrite !filter_cons, IH. done.
Qed.

Hypothesis before_asym : ∀ x y, before x y = true → before y x = false.
Hypothesis before_negtrans :
  ∀ x y z, before x z = true → before x y = true ∨ before y z = true.

Lemma insertBy_sorted (x : A) (l : list A) :
  StronglySorted (fun a b => before b a = false) l →
  StronglySorted (fun a b => before b a = false) (JsObject.insertBy before x l).
Proof.
  induction 1 as [|y l Hl IH Hy]; cbn.
  - repeat constructor.
  - destruct (before y x) eqn:Hyx.
    + constructor; [done|].
      rewrite insertBy_Permutation. constructor; [by apply before_asym | done].
    + constructor; [by constructor|].
      constructor; [done|].
      rewrite Forall_forall in Hy |- *. intros z Hz.
      destruct (before z x) eqn:Hzx; [|done].
      destruct (before_negtrans z y x Hzx) as [Hzy|Hyx']; [|congruence].
      rewrite (Hy z Hz) in Hzy. done.
Qed.

Lemma sortBy_sorted (l : list A) :
  StronglySorted (fun a b => before b a = false) (JsObject.sortBy before l).
Proof.
  induction l as [|x l IH]; [constructor|].
  rewrite sortBy_cons. by apply insertBy_sorted.
Qed.

End Sorting.

Lemma StronglySorted_weaken {A} (R1 R2 : A → A → Prop) (l : list A) :
  (∀ a b, R1 a b → R2 a b) → StronglySorted R1 l → StronglySorted R2 l.
Proof.
  intros HR. induction 1 as [|a l Hl IH Ha]; constructor; [done|].
  eapply Forall_impl; [exact Ha | auto].
Qed.

Lemma StronglySorted_weaken_on {A} (P : A → Prop) (R1 R2 : A → A → Prop)
    (l : list A) :
  (∀ a b, P a → P b → R1 a b → R2 a b) → Forall P l →
  StronglySorted R1 l → StronglySorted R2 l.
Proof.
  intros HR HP. induction 1 as [|a l Hl IH Ha]; [constructor|].
  apply Forall_cons in HP as [Hpa HP]. constructor; [by apply IH|].
  rewrite Forall_forall in Ha, HP |- *. intros b Hb. apply HR; auto.
Qed.

(** Two comparators that agree on the elements of a list sort it alike. *)
Lemma insertBy_ext {A} (before1 before2 : A → A → bool) (x : A) (l : list A) :
  (∀ y, y ∈ l → before1 y x = before2 y x) →
  JsObject.insertBy before1 x l = JsObject.insertBy before2 x l.
Proof.
  induction l as [|y l IH]; intros Heq; cbn; [done|].
  rewrite <- (Heq y) by left. destruct (before1 y x); [|done].
  f_equal. apply IH. intros z Hz. apply Heq. by right.
Qed.

Lemma sortBy_ext {A} (before1 before2 : A → A → bool) (l : list A) :
  (∀ x y, x ∈ l → y ∈ l → before1 x y = before2 x y) →
  JsObject.sortBy before1 l = JsObject.sortBy before2 l.
Proof.
  induction l as [|x l IH]; intros Heq; [done|].
  rewrite !sortBy_cons, <- IH.
  - apply insertBy_ext. intros y Hy. rewrite sortBy_Permutation in Hy.
    apply Heq; [by right | left].
  - intros a b Ha Hb. apply Heq; by right.
Qed.

(** *** Objects *)

Lemma get_set_eq {V} (k : jsstring) (v : V) (o : JsObject.t V) :
  JsObject.get k (JsObject.set k v o) = Some v.
Proof.
  induction o as [|[k' v'] o IH]; cbn.
  - by rewrite decide_True.
  - destruct (decide (k = k')) as [->|Hne]; cbn.
    + by rewrite decide_True.
    + by rewrite decide_False.
Qed.

Lemma get_set_ne {V} (k k0 : jsstring) (v : V) (o : JsObject.t V) :
  k0 ≠ k → JsObject.get k0 (JsObject.set k v o) = JsObject.get k0 o.
Proof.
  intros Hne. induction o as [|[k' v'] o IH]; cbn.
  - by rewrite decide_False.
  - destruct (decide (k = k')) as [->|Hne']; cbn.
    + by rewrite !decide_False.
    + destruct (decide (k0 = k')); done.
Qed.

(** A property that is set again keeps its place; a new one goes last. *)
Lemma set_order {V} (k : jsstring) (v : V) (o : JsObject.t V) :
  map fst (JsObject.set k v o)
  = if decide (k ∈ map fst o) then map fst o else map fst o ++ [k].
Proof.
  induction o as [|[k' v'] o IH]; cbn.
  - rewrite decide_False; [done | apply not_elem_of_nil].
  - destruct (decide (k = k')) as [->|Hne]; cbn.
    + rewrite decide_True; [done | left].
    + rewrite IH. destruct (decide (k ∈ map fst o)) as [Hin|Hnin].
      * rewrite decide_True; [done | by right].
      * rewrite decide_False; [done|].
        intros Hin. apply elem_of_cons in Hin as [?|?]; done.
Qed.

Lemma set_Forall {V} (P : jsstring * V → Prop) (k : jsstring) (v : V)
    (o : JsObject.t V) :
  (∀ k', P (k', v)) → Forall P o → Forall P (JsObject.set k v o).
Proof.
  intros Hv. induction 1 as [|[k' v'] o Hkv Ho IH]; cbn.
  - repeat constructor. apply Hv.
  - destruct (decide (k = k')); constructor; auto.
Qed.

Lemma entries_Permutation {V} (o : JsObject.t V) : JsObject.entries o ≡ₚ o.
Proof.
  unfold JsObject.entries. rewrite sortBy_Permutation.
  induction o as [|kv o IH]; [done|].
  unfold JsObject.indexed in *. cbn [omap list_omap]. rewrite filter_cons.
  destruct (JsObject.arrayIndex kv.1) as [n|] eqn:Hix; cbn.
  - rewrite decide_False by done. cbn. by f_equiv.
  - rewrite decide_True by done. rewrite <- Permutation_middle. by f_equiv.
Qed.

(** Without array indices among the keys, the enumeration is the order of
    creation. *)
Lemma entries_no_index {V} (o : JsObject.t V) :
  Forall (fun kv => JsObject.arrayIndex kv.1 = None) o → JsObject.entries o = o.
Proof.
  intros Hno. unfold JsObject.entries.
  assert (JsObject.indexed o = []) as ->.
  { induction Hno as [|kv o Hkv Ho IH]; [done|].
    unfold JsObject.indexed in *. cbn. by rewrite Hkv. }
  cbn. induction Hno as [|kv o Hkv Ho IH]; [done|].
  rewrite filter_cons, decide_True by done. by f_equal.
Qed.

Lemma indexed_spec {V} (o : JsObject.t V) :
  Forall (fun p => JsObject.arrayIndex p.2.1 = Some p.1) (JsObject.indexed o).
Proof.
  induction o as [|kv o IH]; [constructor|].
  unfold JsObject.indexed in *. cbn [omap list_omap].
  destruct (JsObject.arrayIndex kv.1) as [n|] eqn:Hix; cbn; [|done].
  by constructor.
Qed.

(** The enumeration starts with the array indices, in ascending numeric
    order; the other keys follow in the order of their creation. *)
Lemma entries_index_first {V} (o : JsObject.t V) :
  ∃ idx : list (N * (jsstring * V)),
    JsObject.entries o
    = map snd idx ++ filter (fun kv => JsObject.arrayIndex kv.1 = None) o /\
    Forall (fun p => JsObject.arrayIndex p.2.1 = Some p.1) idx /\
    StronglySorted (fun a b => (a.1 <= b.1)%N) idx.
Proof.
  exists (JsObject.sortBy (fun a b => (a.1 <? b.1)%N) (JsObject.indexed o)).
  split; [done|]. split.
  - rewrite sortBy_Permutation. apply indexed_spec.
  - eapply StronglySorted_weaken; [| apply sortBy_sorted].
    + intros a b Hba. cbn beta in Hba. apply N.ltb_ge in Hba. done.
    + intros x y Hxy. apply N.ltb_lt in Hxy. apply N.ltb_ge. lia.
    + intros x y z Hxz. apply N.ltb_lt in Hxz.
      destruct (decide (x.1 < y.1)%N) as [Hlt|Hge].
      * left. by apply N.ltb_lt.
      * right. apply N.ltb_lt. lia.
Qed.

(** *** The order of the doubles

    [FloatAxioms] specifies the comparisons and the subtraction of [float]
    on the sign, mantissa and exponent of their operands.  The lemmas below
    relate them to the order of the integers through [ord]: for doubles
    that are not NaN, [x <? y] is [ord x < ord y], and the difference
    [x - y] is negative exactly when [ord x < ord y], because rounding
    takes no difference to zero or across it. *)

(** A positive number of [d] binary digits lies between 2^(d-1) and 2^d. *)
Lemma digits2_pos_bounds (m : positive) :
  (2 ^ (Z.pos (digits2_pos m) - 1) <= Z.pos m < 2 ^ Z.pos (digits2_pos m))%Z.
Proof.
  induction m as [m IH|m IH|]; cbn [digits2_pos].
  - rewrite Pos2Z.inj_succ. replace (Z.succ (Z.pos (digits2_pos m)) - 1)%Z
      with (Z.succ (Z.pos (digits2_pos m) - 1))%Z by lia.
    rewrite !Z.pow_succ_r by lia. lia.
  - rewrite Pos2Z.inj_succ. replace (Z.succ (Z.pos (digits2_pos m)) - 1)%Z
      with (Z.succ (Z.pos (digits2_pos m) - 1))%Z by lia.
    rewrite !Z.pow_succ_r by lia. lia.
  - cbn. lia.
Qed.

(** What [valid_binary] says of a finite double. *)
Lemma bounded_spec (m : positive) (e : Z) :
  bounded prec emax m e = true →
  (-1074 <= e <= 971)%Z /\ (Z.pos m < 2 ^ 53)%Z /\
  (e = (-1074)%Z ∨ (2 ^ 52 <= Z.pos m)%Z).
Proof.
  unfold bounded, canonical_mantissa, fexp, SpecFloat.emin, prec, emax.
  intros [Hc He]%andb_true_iff. apply Z.eqb_eq in Hc. apply Z.leb_le in He.
  pose proof (digits2_pos_bounds m) as [Hlo Hhi].
  set (d := Z.pos (digits2_pos m)) in *.
  assert (0 < d)%Z by (unfold d; lia).
  assert (d <= 53)%Z as Hd by lia.
  split; [lia|]. split.
  - eapply Z.lt_le_trans; [exact Hhi|]. apply Z.pow_le_mono_r; lia.
  - destruct (decide (e = (-1074)%Z)) as [?|Hne]; [by left|]. right.
    assert (d = 53%Z) as Hd53 by lia. rewrite Hd53 in Hlo. exact Hlo.
Qed.

(** On valid mantissas and exponents, the comparison by exponent, then by
    mantissa, is the comparison of the values. *)
Lemma mag_compare (m1 m2 : positive) (e1 e2 : Z) :
  bounded prec emax m1 e1 = true → bounded prec emax m2 e2 = true →
  match (e1 ?= e2)%Z with
  | Lt => Lt
  | Gt => Gt
  | Eq => Pos.compare_cont Eq m1 m2
  end = (Z.pos m1 * 2 ^ (e1 + 1074) ?= Z.pos m2 * 2 ^ (e2 + 1074))%Z.
Proof.
  intros (He1 & Hm1 & Hn1)%bounded_spec (He2 & Hm2 & Hn2)%bounded_spec.
  destruct (Z.compare_spec e1 e2) as [->|Hlt|Hgt].
  - rewrite <- Zmult_compare_compat_r by (apply Z.lt_gt, Z.pow_pos_nonneg; lia). done.
  - symmetry. apply Z.compare_lt_iff.
    destruct Hn2 as [?|Hn2]; [lia|].
    replace (e2 + 1074)%Z with ((e1 + 1074) + (e2 - e1))%Z by lia.
    rewrite (Z.pow_add_r 2 (e1 + 1074) (e2 - e1)) by lia.
    assert (0 < 2 ^ (e1 + 1074))%Z by (apply Z.pow_pos_nonneg; lia).
    assert (2 ^ 1 <= 2 ^ (e2 - e1))%Z by (apply Z.pow_le_mono_r; lia).
    change (2 ^ 52)%Z with 4503599627370496%Z in *.
    change (2 ^ 53)%Z with 9007199254740992%Z in *.
    change (2 ^ 1)%Z with 2%Z in *.
    generalize dependent (2 ^ (e1 + 1074))%Z. generalize dependent (2 ^ (e2 - e1))%Z.
    intros B HB A HA.
    assert (Z.pos m1 * A < 2 * Z.pos m2 * A)%Z by nia.
    assert (2 * Z.pos m2 * A <= Z.pos m2 * (A * B))%Z by nia. lia.
  - symmetry. apply Z.compare_gt_iff.
    destruct Hn1 as [?|Hn1]; [lia|].
    replace (e1 + 1074)%Z with ((e2 + 1074) + (e1 - e2))%Z by lia.
    rewrite (Z.pow_add_r 2 (e2 + 1074) (e1 - e2)) by lia.
    assert (0 < 2 ^ (e2 + 1074))%Z by (apply Z.pow_pos_nonneg; lia).
    assert (2 ^ 1 <= 2 ^ (e1 - e2))%Z by (apply Z.pow_le_mono_r; lia).
    change (2 ^ 52)%Z with 4503599627370496%Z in *.
    change (2 ^ 53)%Z with 9007199254740992%Z in *.
    change (2 ^ 1)%Z with 2%Z in *.
    generalize dependent (2 ^ (e2 + 1074))%Z. generalize dependent (2 ^ (e1 - e2))%Z.
    intros B HB A HA.
    assert (Z.pos m2 * A < 2 * Z.pos m1 * A)%Z by nia.
    assert (2 * Z.pos m1 * A <= Z.pos m1 * (A * B))%Z by nia. lia.
Qed.

(** Every finite double is below what [SFord] gives to infinity. *)
Lemma finite_below_infinity (m : positive) (e : Z) :
  bounded prec emax m e = true → (Z.pos m * 2 ^ (e + 1074) < 2 ^ 2200)%Z.
Proof.
  intros (He & Hm & _)%bounded_spec.
  assert (2 ^ (e + 1074) <= 2 ^ 2045)%Z by (apply Z.pow_le_mono_r; lia).
  assert (0 < 2 ^ 2045)%Z by (by apply Z.pow_pos_nonneg).
  apply Z.le_lt_trans with (Z.pos m * 2 ^ 2045)%Z;
    [apply Z.mul_le_mono_nonneg_l; lia|].
  apply Z.lt_le_trans with (2 ^ 53 * 2 ^ 2045)%Z;
    [apply Z.mul_lt_mono_pos_r; lia|].
  rewrite <- Z.pow_add_r by lia. apply Z.pow_le_mono_r; lia.
Qed.

(** [SFord] is an order embedding of the valid doubles that are not NaN. *)
Lemma SFcompare_ord (x y : spec_float) :
  valid_binary x = true → valid_binary y = true →
  x ≠ S754_nan → y ≠ S754_nan →
  SFcompare x y = Some (SFord x ?= SFord y)%Z.
Proof.
  intros Hx Hy Hnx Hny.
  assert (0 < 2 ^ 2200)%Z as Hinf by (by apply Z.pow_pos_nonneg).
  destruct x as [sx|sx| |sx mx ex], y as [sy|sy| |sy my ey]; try done;
    cbn [SFcompare SFord valid_binary] in *.
  - by destruct sy.
  - f_equal. symmetry. destruct sy; cbn [cond_Zopp].
    + apply Z.compare_gt_iff.
      assert (0 < 2 ^ (ey + 1074))%Z
        by (apply Z.pow_pos_nonneg; [lia | apply bounded_spec in Hy; lia]). nia.
    + apply Z.compare_lt_iff.
      assert (0 < 2 ^ (ey + 1074))%Z
        by (apply Z.pow_pos_nonneg; [lia | apply bounded_spec in Hy; lia]). nia.
  - by destruct sx.
  - destruct sx, sy; cbn [cond_Zopp]; f_equal; symmetry;
      first [apply Z.compare_eq_iff | apply Z.compare_lt_iff | apply Z.compare_gt_iff];
      lia.
  - pose proof (finite_below_infinity my ey Hy).
    assert (0 < 2 ^ (ey + 1074))%Z
      by (apply Z.pow_pos_nonneg; [lia | apply bounded_spec in Hy; lia]).
    destruct sx, sy; cbn [cond_Zopp]; f_equal; symmetry;
      first [apply Z.compare_lt_iff; nia | apply Z.compare_gt_iff; nia].
  - f_equal. symmetry.
    assert (0 < 2 ^ (ex + 1074))%Z
      by (apply Z.pow_pos_nonneg; [lia | apply bounded_spec in Hx; lia]).
    destruct sx; cbn [cond_Zopp];
      [apply Z.compare_lt_iff | apply Z.compare_gt_iff]; nia.
  - pose proof (finite_below_infinity mx ex Hx).
    assert (0 < 2 ^ (ex + 1074))%Z
      by (apply Z.pow_pos_nonneg; [lia | apply bounded_spec in Hx; lia]).
    destruct sx, sy; cbn [cond_Zopp]; f_equal; symmetry;
      first [apply Z.compare_lt_iff; nia | apply Z.compare_gt_iff; nia].
  - f_equal.
    assert (0 < 2 ^ (ex + 1074))%Z
      by (apply Z.pow_pos_nonneg; [lia | apply bounded_spec in Hx; lia]).
    assert (0 < 2 ^ (ey + 1074))%Z
      by (apply Z.pow_pos_nonneg; [lia | apply bounded_spec in Hy; lia]).
    destruct sx, sy; cbn [cond_Zopp].
    + pose proof (mag_compare mx my ex ey Hx Hy) as Hc.
      rewrite Z.compare_opp.
      rewrite (Z.compare_antisym (Z.pos mx * 2 ^ (ex + 1074)) (Z.pos my * 2 ^ (ey + 1074))).
      rewrite <- Hc. by destruct (ex ?= ey)%Z.
    + symmetry. apply Z.compare_lt_iff. nia.
    + symmetry. apply Z.compare_gt_iff. nia.
    + apply mag_compare; done.
Qed.

(** *** Rounding keeps the sign *)

(** A shift to the right by [p] binary digits divides a mantissa that is
    not negative by 2^p. *)
Lemma shr_1_m (r : shr_record) :
  (0 <= shr_m r)%Z → shr_m (shr_1 r) = (shr_m r / 2)%Z.
Proof.
  destruct r as [m rb sb]. cbn [shr_m]. intros Hm.
  destruct m as [|[p|p|]|p]; cbn [shr_1 shr_m]; [reflexivity | | | reflexivity | lia].
  - apply (Z.div_unique _ _ _ 1); lia.
  - apply (Z.div_unique _ _ _ 0); lia.
Qed.

Lemma iter_pos_shr_1_m (p : positive) (r : shr_record) :
  (0 <= shr_m r)%Z → shr_m (SpecFloat.iter_pos shr_1 p r) = (shr_m r / 2 ^ Z.pos p)%Z.
Proof.
  revert r. induction p as [p IH|p IH|]; intros r Hr; cbn [SpecFloat.iter_pos].
  - assert (0 <= shr_m (shr_1 r))%Z as H1
      by (rewrite shr_1_m by done; apply Z.div_pos; lia).
    assert (0 <= shr_m (SpecFloat.iter_pos shr_1 p (shr_1 r)))%Z as H2
      by (rewrite IH by done; apply Z.div_pos; [done | by apply Z.pow_pos_nonneg]).
    rewrite IH, IH, shr_1_m by done.
    rewrite !Z.div_div by (try apply Z.pow_pos_nonneg; lia).
    f_equal. assert (Z.pos p~1 = 1 + Z.pos p + Z.pos p)%Z as -> by lia.
    rewrite !Z.pow_add_r by lia. lia.
  - assert (0 <= shr_m (SpecFloat.iter_pos shr_1 p r))%Z as H2
      by (rewrite IH by done; apply Z.div_pos; [done | by apply Z.pow_pos_nonneg]).
    rewrite IH, IH by done.
    rewrite !Z.div_div by (try apply Z.pow_pos_nonneg; lia).
    f_equal. assert (Z.pos p~0 = Z.pos p + Z.pos p)%Z as -> by lia.
    rewrite !Z.pow_add_r by lia. lia.
  - by apply shr_1_m.
Qed.

Lemma shr_record_of_loc_m (m : Z) (l : location) : shr_m (shr_record_of_loc m l) = m.
Proof. by destruct l as [|[]]. Qed.

(** Above the least exponent, shifting a positive mantissa to its format
    leaves a positive mantissa. *)
Lemma shr_fexp_pos (m : positive) (e : Z) (l : location) :
  (-1074 <= e)%Z →
  (0 < shr_m (shr_fexp prec emax (Z.pos m) e l).1)%Z /\
  (-1074 <= (shr_fexp prec emax (Z.pos m) e l).2)%Z.
Proof.
  intros He. unfold shr_fexp, shr, fexp, SpecFloat.emin, prec, emax. cbn [Zdigits2].
  pose proof (digits2_pos_bounds m) as [Hlo Hhi].
  set (d := Z.pos (digits2_pos m)) in *.
  destruct (Z.max (d + e - 53) (3 - 1024 - 53) - e)%Z as [|p|p] eqn:Hn; cbn [fst snd].
  - rewrite shr_record_of_loc_m. lia.
  - rewrite iter_pos_shr_1_m by (rewrite shr_record_of_loc_m; lia).
    rewrite shr_record_of_loc_m. split; [|lia].
    apply Z.div_str_pos. split; [by apply Z.pow_pos_nonneg|].
    apply Z.le_trans with (2 ^ (d - 1))%Z; [|done].
    apply Z.pow_le_mono_r; lia.
  - rewrite shr_record_of_loc_m. lia.
Qed.

Lemma round_nearest_even_pos (m : Z) (l : location) :
  (0 < m)%Z → (0 < round_nearest_even m l)%Z.
Proof.
  intros Hm. destruct l as [|[]]; cbn [round_nearest_even]; try lia.
  destruct (Z.even m); lia.
Qed.

(** Rounding a positive mantissa with the sign [s], at an exponent that is
    not below the least one, gives a finite double or an infinity of sign
    [s], never a zero. *)
Lemma binary_round_aux_signed (s : bool) (m : positive) (e : Z) (l : location) :
  (-1074 <= e)%Z → signed s (binary_round_aux prec emax s (Z.pos m) e l).
Proof.
  intros He. unfold binary_round_aux.
  destruct (shr_fexp_pos m e l He) as [Hm1 He1].
  destruct (shr_fexp prec emax (Z.pos m) e l) as [mrs' e']. cbn [fst snd] in *.
  pose proof (round_nearest_even_pos _ (loc_of_shr_record mrs') Hm1) as Hm2.
  destruct (round_nearest_even (shr_m mrs') (loc_of_shr_record mrs')) as [|m2|m2];
    try lia.
  destruct (shr_fexp_pos m2 e' loc_Exact He1) as [Hm3 _].
  destruct (shr_fexp prec emax (Z.pos m2) e' loc_Exact) as [mrs'' e'']. cbn [fst snd] in *.
  destruct (shr_m mrs'') as [|m3|m3]; try lia.
  by destruct (e'' <=? emax - prec)%Z.
Qed.

Lemma binary_round_signed (s : bool) (m : positive) (e : Z) :
  (-1074 <= e)%Z → signed s (binary_round prec emax s m e).
Proof.
  intros He. unfold binary_round, shl_align.
  destruct (fexp prec emax (Z.pos (digits2_pos m) + e) - e)%Z as [|p|p] eqn:Hp;
    try by apply binary_round_aux_signed.
  apply binary_round_aux_signed.
  unfold fexp, SpecFloat.emin, prec, emax in *. lia.
Qed.

Lemma binary_normalize_negative (z e : Z) :
  (-1074 <= e)%Z →
  SFltb (binary_normalize prec emax z e false) (S754_zero false) = (z <? 0)%Z.
Proof.
  intros He. destruct z as [|m|m]; cbn [binary_normalize]; [done| |].
  - pose proof (binary_round_signed false m e He) as Hs.
    destruct (binary_round prec emax false m e) as [s|s| |s m' e'];
      cbn in *; try done; by subst.
  - pose proof (binary_round_signed true m e He) as Hs.
    destruct (binary_round prec emax true m e) as [s|s| |s m' e'];
      cbn in *; try done; by subst.
Qed.

(** Aligning a mantissa to a lower exponent multiplies it by a power of
    two. *)
Lemma shl_align_fst (m : positive) (e e' : Z) :
  (e' <= e)%Z → Z.pos (shl_align m e e').1 = (Z.pos m * 2 ^ (e - e'))%Z.
Proof.
  intros He. unfold shl_align.
  destruct (e' - e)%Z as [|p|p] eqn:Hp; cbn [fst]; try lia.
  - replace (e - e')%Z with 0%Z by lia. lia.
  - replace (e - e')%Z with (Z.pos p) by lia.
    rewrite (Pos.iter_swap_gen _ _ Z.pos xO (fun x => (2 * x)%Z)) by done.
    clear. induction p using Pos.peano_ind.
    + cbn. lia.
    + rewrite Pos.iter_succ, IHp, Pos2Z.inj_succ, Z.pow_succ_r by lia. lia.
Qed.

(** The sign of a difference is the order of its operands. *)
Lemma SFsub_negative (x y : spec_float) :
  valid_binary x = true → valid_binary y = true →
  x ≠ S754_nan → y ≠ S754_nan →
  SFltb (SF64sub x y) (S754_zero false) = (SFord x <? SFord y)%Z.
Proof.
  intros Hx Hy Hnx Hny.
  assert (0 < 2 ^ 2200)%Z as Hinf by (by apply Z.pow_pos_nonneg).
  destruct x as [sx|sx| |sx mx ex], y as [sy|sy| |sy my ey]; try done;
    unfold SF64sub; cbn [SFsub SFord valid_binary] in *.
  - by destruct sx, sy.
  - destruct sy; cbn; symmetry; [apply Z.ltb_ge | apply Z.ltb_lt]; lia.
  - assert (0 < 2 ^ (ey + 1074))%Z
      by (apply Z.pow_pos_nonneg; [lia | apply bounded_spec in Hy; lia]).
    destruct sy; cbn; symmetry; [apply Z.ltb_ge | apply Z.ltb_lt]; nia.
  - destruct sx; cbn; symmetry; [apply Z.ltb_lt | apply Z.ltb_ge]; lia.
  - destruct sx, sy; cbn; symmetry; first [apply Z.ltb_lt; lia | apply Z.ltb_ge; lia].
  - pose proof (finite_below_infinity my ey Hy).
    assert (0 < 2 ^ (ey + 1074))%Z
      by (apply Z.pow_pos_nonneg; [lia | apply bounded_spec in Hy; lia]).
    destruct sx, sy; cbn; symmetry; first [apply Z.ltb_lt; nia | apply Z.ltb_ge; nia].
  - assert (0 < 2 ^ (ex + 1074))%Z
      by (apply Z.pow_pos_nonneg; [lia | apply bounded_spec in Hx; lia]).
    destruct sx; cbn; symmetry; [apply Z.ltb_lt | apply Z.ltb_ge]; nia.
  - pose proof (finite_below_infinity mx ex Hx).
    assert (0 < 2 ^ (ex + 1074))%Z
      by (apply Z.pow_pos_nonneg; [lia | apply bounded_spec in Hx; lia]).
    destruct sx, sy; cbn; symmetry; first [apply Z.ltb_lt; nia | apply Z.ltb_ge; nia].
  - pose proof (bounded_spec _ _ Hx) as (Hex & _). pose proof (bounded_spec _ _ Hy) as (Hey & _).
    cbn zeta. rewrite binary_normalize_negative by lia.
    rewrite !shl_align_fst by lia.
    set (ez := Z.min ex ey).
    assert (0 < 2 ^ (ez + 1074))%Z as Hz by (apply Z.pow_pos_nonneg; lia).
    assert (∀ s m e, (ez <= e)%Z →
              cond_Zopp s (Z.pos m * 2 ^ (e + 1074))
              = (cond_Zopp s (Z.pos m * 2 ^ (e - ez)) * 2 ^ (ez + 1074))%Z) as Hscale.
    { intros s m e He. replace (e + 1074)%Z with ((e - ez) + (ez + 1074))%Z by lia.
      rewrite Z.pow_add_r by lia. destruct s; cbn; lia. }
    rewrite (Hscale sx mx ex), (Hscale sy my ey) by lia.
    generalize (cond_Zopp sx (Z.pos mx * 2 ^ (ex - ez))).
    generalize (cond_Zopp sy (Z.pos my * 2 ^ (ey - ez))).
    intros b a.
    destruct (Z.ltb_spec (a - b) 0); symmetry; [apply Z.ltb_lt | apply Z.ltb_ge]; nia.
Qed.

(** *** Comparisons and differences of doubles, in terms of [ord] *)

Lemma is_nan_spec (x : float) : is_nan x = false → Prim2SF x ≠ S754_nan.
Proof.
  unfold is_nan. rewrite FloatAxioms.eqb_spec. intros Hx Hn. rewrite Hn in Hx. done.
Qed.

Lemma ltb_ord (x y : float) :
  is_nan x = false → is_nan y = false → (x <? y)%float = (ord x <? ord y)%Z.
Proof.
  intros Hx%is_nan_spec Hy%is_nan_spec. rewrite FloatAxioms.ltb_spec. unfold SFltb, ord.
  rewrite SFcompare_ord by (done || apply Prim2SF_valid).
  unfold Z.ltb. by destruct (_ ?= _)%Z.
Qed.

Lemma leb_ord (x y : float) :
  is_nan x = false → is_nan y = false → (x <=? y)%float = (ord x <=? ord y)%Z.
Proof.
  intros Hx%is_nan_spec Hy%is_nan_spec. rewrite FloatAxioms.leb_spec. unfold SFleb, ord.
  rewrite SFcompare_ord by (done || apply Prim2SF_valid).
  unfold Z.leb. by destruct (_ ?= _)%Z.
Qed.

Lemma eqb_ord (x y : float) :
  is_nan x = false → is_nan y = false → (x =? y)%float = (ord x =? ord y)%Z.
Proof.
  intros Hx%is_nan_spec Hy%is_nan_spec. rewrite FloatAxioms.eqb_spec. unfold SFeqb, ord.
  rewrite SFcompare_ord by (done || apply Prim2SF_valid).
  destruct (Z.compare_spec (SFord (Prim2SF x)) (SFord (Prim2SF y))) as [Heq|?|?];
    symmetry; [rewrite Heq; apply Z.eqb_refl | apply Z.eqb_neq; lia | apply Z.eqb_neq; lia].
Qed.

Lemma sub_negative_ord (x y : float) :
  is_nan x = false → is_nan y = false → (x - y <? 0)%float = (ord x <? ord y)%Z.
Proof.
  intros Hx%is_nan_spec Hy%is_nan_spec. rewrite FloatAxioms.ltb_spec, FloatAxioms.sub_spec.
  change (Prim2SF 0) with (S754_zero false).
  apply SFsub_negative; (done || apply Prim2SF_valid).
Qed.

Lemma SFeqb_refl (x : spec_float) : x ≠ S754_nan → SFeqb x x = true.
Proof.
  unfold SFeqb. destruct x as [s|s| |s m e]; cbn; try done.
  - by destruct s.
  - intros _. rewrite Z.compare_refl, Pos.compare_cont_refl. by destruct s.
Qed.

Lemma eqb_not_nan (x y : float) :
  (x =? y)%float = true → is_nan x = false /\ is_nan y = false.
Proof.
  unfold is_nan. rewrite !FloatAxioms.eqb_spec. intros Heq.
  rewrite !SFeqb_refl; [done | |].
  - intros Hn. rewrite Hn in Heq. by destruct (Prim2SF x).
  - intros Hn. by rewrite Hn in Heq.
Qed.

Lemma leb_not_nan (x y : float) :
  (x <=? y)%float = true → is_nan x = false /\ is_nan y = false.
Proof.
  unfold is_nan. rewrite FloatAxioms.leb_spec, !FloatAxioms.eqb_spec. intros Hle.
  rewrite !SFeqb_refl; [done | |].
  - intros Hn. rewrite Hn in Hle. by destruct (Prim2SF x).
  - intros Hn. by rewrite Hn in Hle.
Qed.

(** *** Ranking *)

Lemma numberOr_falsy (v d : float) :
  PrimFloat.is_nan v = true ∨ PrimFloat.is_zero v = true → numberOr v d = d.
Proof. unfold numberOr. intros [->| ->]; [done | by rewrite orb_true_r]. Qed.

Lemma numberOr_truthy (v d : float) :
  PrimFloat.is_nan v = false → PrimFloat.is_zero v = false → numberOr v d = v.
Proof. unfold numberOr. by intros -> ->. Qed.

(** On rows whose overall scores are numbers, the comparator puts [a]
    before [b] exactly when the overall of [a] is the larger double: it is
    a consistent comparator. *)
Lemma ranksBefore_ord (a b : Row) :
  isNumber a → isNumber b →
  ranksBefore a b = (ord (overall b) <? ord (overall a))%Z.
Proof. intros Ha Hb. unfold ranksBefore. by apply sub_negative_ord. Qed.

Lemma tiedAt_not_before (v : float) (a b : Row) :
  tiedAt v a → tiedAt v b → ranksBefore a b = false.
Proof.
  unfold tiedAt. intros Ha Hb.
  destruct (eqb_not_nan _ _ Ha) as [Hna Hnv].
  destruct (eqb_not_nan _ _ Hb) as [Hnb _].
  rewrite eqb_ord in Ha, Hb by done. apply Z.eqb_eq in Ha, Hb.
  rewrite ranksBefore_ord by done. apply Z.ltb_ge. lia.
Qed.

Lemma rank_Permutation (sc : JsObject.t Score) (r : Rubric) :
  rank sc r ≡ₚ map (rowOf r) sc.
Proof.
  unfold rank. rewrite sortBy_Permutation. by rewrite entries_Permutation.
Qed.

Lemma rank_sorted (sc : JsObject.t Score) (r : Rubric) :
  Forall isNumber (map (rowOf r) (JsObject.entries sc)) →
  StronglySorted (fun a b => (overall b <=? overall a)%float = true) (rank sc r).
Proof.
  intros Hnum. unfold rank.
  set (rows := map (rowOf r) (JsObject.entries sc)) in *.
  rewrite (sortBy_ext ranksBefore
             (fun a b => (ord (overall b) <? ord (overall a))%Z) rows).
  - apply (StronglySorted_weaken_on isNumber
             (fun a b => (ord (overall a) <? ord (overall b))%Z = false)).
    + intros a b Ha Hb Hab. rewrite leb_ord by done.
      apply Z.leb_le. apply Z.ltb_ge in Hab. lia.
    + by rewrite sortBy_Permutation.
    + apply (sortBy_sorted (fun a b => (ord (overall b) <? ord (overall a))%Z)).
      * intros x y Hxy. apply Z.ltb_lt in Hxy. apply Z.ltb_ge. lia.
      * intros x y z Hxz. apply Z.ltb_lt in Hxz.
        destruct (decide (ord (overall y) < ord (overall x))%Z);
          [left | right]; apply Z.ltb_lt; lia.
  - rewrite Forall_forall in Hnum. intros x y Hx Hy. apply ranksBefore_ord; auto.
Qed.

Lemma rank_stable (sc : JsObject.t Score) (r : Rubric) (v : float) :
  filter (tiedAt v) (rank sc r)
  = filter (tiedAt v) (map (rowOf r) (JsObject.entries sc)).
Proof. apply sortBy_filter, tiedAt_not_before. Qed.

(** The weighted mean of four rationals that are at least [lo]. *)
Lemma weighted_mean_lower (lo a c k t wa wc wk wt : Q) :
  lo <= a → lo <= c → lo <= k → lo <= t →
  0 <= wa → 0 <= wc → 0 <= wk → 0 <= wt → 0 < wa + wc + wk + wt →
  lo <= (a * wa + c * wc + k * wk + t * wt) / (wa + wc + wk + wt).
Proof.
  intros Ha Hc Hk Ht Hwa Hwc Hwk Hwt Hpos.
  apply Qle_shift_div_l; [done|].
  pose proof (Qmult_le_compat_r _ _ wa Ha Hwa).
  pose proof (Qmult_le_compat_r _ _ wc Hc Hwc).
  pose proof (Qmult_le_compat_r _ _ wk Hk Hwk).
  pose proof (Qmult_le_compat_r _ _ wt Ht Hwt).
  lra.
Qed.

(** Destructs what the handler of [agent_done] looks up: the colour of
    the agent, whether its name is inherited, whether it is [__proto__]. *)
Ltac agent_cases :=
  repeat match goal with
  | |- context [@lookup _ _ (gmap _ _) _ ?k ?m] => destruct (m !! k) eqn:?; cbn
  | |- context [inheritedName ?k] => destruct (inheritedName k) eqn:?; cbn
  | |- context [decide (?a = protoKey)] => destruct (decide (a = protoKey)); cbn
  end.

(** [state.scores] only ever receives records made by [recordScore]. *)
Lemma deliver_scored (s : State) (ee : Env * Event) :
  scoredByRecordScore (scores s) →
  scoredByRecordScore (scores (post (deliver s ee))).
Proof.
  intros Hs. destruct ee as [env e].
  destruct s as [w cs sel run cols nxt st ti sc]. cbn in Hs.
  destruct e as [c|r t|a c m|c m|c| | |];
    unfold deliver, tryCatch, handleEvent, addAgentCard, colorIndex, readProperty,
      recordScore, renderScoreboard, updateInputState, stopTimer, addError,
      addStatus, addRoundSeparator, appendMessage, bind, get, modify, emit, ret,
      throw;
    cbn; try done.
  - by destruct c.
  - destruct a as [a|]; cbn; agent_cases; try done; apply set_Forall; eauto.
  - by destruct ti.
  - by destruct ti.
Qed.

Lemma finalState_scored (l : list (Env * Event)) (s : State) :
  scoredByRecordScore (scores s) →
  scoredByRecordScore (scores (finalState s l)).
Proof.
  revert s. induction l as [|ee l IH]; intros s Hs; [done|].
  apply (IH (post (deliver s ee))). by apply deliver_scored.
Qed.

Lemma initialState_scored : scoredByRecordScore (scores initialState).
Proof. constructor. Qed.

(** ** The scoring engine *)

Lemma recordScore_stores (role content : jsstring) (s : State) :
  role ≠ protoKey →
  recordScore role content s
  = mkOutcome (setScores (JsObject.set role (scoreOf content) (scores s)) s) []
      (inr tt).
Proof. intros Hne. unfold recordScore. by rewrite decide_False. Qed.

Lemma recordScore_proto (content : jsstring) (s : State) :
  recordScore protoKey content s = mkOutcome s [] (inr tt).
Proof. unfold recordScore. by rewrite decide_True. Qed.

(** C8: for every text, the four sub-scores that [recordScore] computes, as
    doubles, lie in [0, 10), and they depend on the text alone: whatever
    the state and the agent, the record that is stored for the agent is
    [scoreOf content], so that equal texts give equal sub-scores.  Under
    the one name [__proto__] the assignment stores nothing. *)
Theorem recordScore_bounded_and_deterministic
    (content : jsstring) (s1 s2 : State) (role1 role2 : jsstring) :
  let sc := scoreOf content in
  ((0 <=? acc sc) = true /\ (acc sc <? 10) = true)%float /\
  ((0 <=? comp sc) = true /\ (comp sc <? 10) = true)%float /\
  ((0 <=? conc sc) = true /\ (conc sc <? 10) = true)%float /\
  ((0 <=? tone sc) = true /\ (tone sc <? 10) = true)%float /\
  (role1 ≠ protoKey →
   JsObject.get role1 (scores (post (recordScore role1 content s1))) = Some sc) /\
  (role2 ≠ protoKey →
   JsObject.get role2 (scores (post (recordScore role2 content s2))) = Some sc) /\
  scores (post (recordScore protoKey content s1)) = scores s1.
Proof.
  pose proof (scoreOf_bounds content) as ((Ha & _) & (Hc & _) & (Hk & _) & (Ht & _)).
  cbn zeta in *.
  split; [done|]. split; [done|]. split; [done|]. split; [done|].
  split; [|split]; [| |by rewrite recordScore_proto];
    intros Hne; rewrite recordScore_stores by done;
    cbn [post scores setScores]; apply get_set_eq.
Qed.

Lemma recordScore_bounded_and_deterministic_witness :
  JsObject.get (JsString.lit "Alpha")
    (scores (post (recordScore (JsString.lit "Alpha") (JsString.lit "fine") readyState)))
  = Some (scoreOf (JsString.lit "fine")).
Proof.
  apply (recordScore_bounded_and_deterministic (JsString.lit "fine") readyState
           readyState (JsString.lit "Alpha") (JsString.lit "Alpha")).
  by vm_compute.
Defined.

(** The overall score of a row is made from the record alone. *)
Lemma overall_rowOf (r : Rubric) (kv : jsstring * Score) :
  overall (rowOf r kv) = overallOf r kv.2.
Proof. reflexivity. Qed.

(** With the weights 45, 25, 15, 15, the overall score of a record made by
    [recordScore], computed in doubles, lies between 6.2 and 8.9. *)
Lemma overall_default_bounds (kv : jsstring * Score) :
  (∃ content, kv.2 = scoreOf content) →
  ((5.5 <=? overall (rowOf rubric100 kv)) = true /\
   (6.2 <=? overall (rowOf rubric100 kv)) = true /\
   (overall (rowOf rubric100 kv) <=? 8.9) = true)%float.
Proof.
  intros [content Hkv]. rewrite overall_rowOf, Hkv.
  destruct (scoreOf_checked content) as (chars & words & -> & _ & Hd).
  unfold defaultOverallChecked in Hd. cbn zeta in Hd.
  rewrite !andb_true_iff in Hd. tauto.
Qed.

(** With the weights of the untouched sliders, the ranking of records made
    by [recordScore] is sorted: no overall is NaN. *)
Lemma rank_sorted_default (sc : JsObject.t Score) :
  scoredByRecordScore sc →
  StronglySorted (fun a b => (overall b <=? overall a)%float = true)
    (rank sc rubric100).
Proof.
  intros Hsc. apply rank_sorted. apply Forall_fmap.
  rewrite entries_Permutation. eapply Forall_impl; [exact Hsc|].
  intros kv Hkv. cbn beta. unfold isNumber.
  destruct (overall_default_bounds kv Hkv) as (H & _).
  by destruct (leb_not_nan _ _ H).
Qed.

(** C10, as stated, fails in the arithmetic of doubles: a text of 20
    characters has the conciseness 5.5, and under positive weights of
    which the conciseness weight is 0x1.8000000000005p0 and the others are
    2^-200, the overall score that the ranking computes is
    5.4999999999999991. *)
Lemma overall_below_lower_bound :
  let r := getRubric skewedEnv in
  let sc := scores (finalState runningState
              [(skewedEnv, AgentDone (Some (JsString.lit "Alpha"))
                             (Some twentyChars) None)]) in
  ((0 <? wa r) = true /\ (0 <? wc r) = true /\ (0 <? wk r) = true /\
   (0 <? wt r) = true /\ (0 <? wa r + wc r + wk r + wt r) = true)%float /\
  ∃ row, rank sc r = [row] /\ role row = JsString.lit "Alpha" /\
         rowConc row = 5.5%float /\ overall row = 5.4999999999999991%float /\
         (overall row <? 5.5)%float = true.
Proof.
  cbn zeta. split; [by vm_compute|].
  eexists. split; [vm_compute; reflexivity|]. by vm_compute.
Qed.

(** C10, amended: for every text the sub-scores, as doubles, are at least
    6.5, 6.0, 5.5 and 6.5.  Hence, for all non-negative weights of positive
    sum, the weighted mean of the four sub-scores is at least 5.5 in exact
    arithmetic.  The overall score of the ranking is that mean computed in
    doubles, each operation rounded: with the weights 45, 25, 15, 15 of the
    untouched sliders it is at least 5.5 for every record made by
    [recordScore], and the records of [state.scores] stay of that kind
    through every delivery; under other weights the rounding can take it
    below 5.5. *)
Theorem scores_bounded_below :
  (∀ content : jsstring,
     ((6.5 <=? acc (scoreOf content)) = true /\
      (6.0 <=? comp (scoreOf content)) = true /\
      (5.5 <=? conc (scoreOf content)) = true /\
      (6.5 <=? tone (scoreOf content)) = true)%float) /\
  (∀ (content : jsstring) (wa wc wk wt : Q),
     0 <= wa → 0 <= wc → 0 <= wk → 0 <= wt → 0 < wa + wc + wk + wt →
     let sc := scoreOf content in
     5.5 <= (exact (acc sc) * wa + exact (comp sc) * wc + exact (conc sc) * wk
             + exact (tone sc) * wt) / (wa + wc + wk + wt)) /\
  getRubric sampleEnv = rubric100 /\
  (∀ sc : JsObject.t Score,
     scoredByRecordScore sc →
     Forall (fun row => (5.5 <=? overall row)%float = true) (rank sc rubric100)) /\
  (∀ (s : State) (l : list (Env * Event)),
     scoredByRecordScore (scores s) →
     scoredByRecordScore (scores (finalState s l))).
Proof.
  split_and!.
  - intros content.
    pose proof (scoreOf_bounds content)
      as ((_ & (Ha & _) & _) & (_ & (Hc & _) & _) & (_ & (Hk & _) & _)
          & (_ & (Ht & _) & _)).
    cbn zeta in *. done.
  - intros content wa wc wk wt Hwa Hwc Hwk Hwt Hpos.
    pose proof (scoreOf_bounds content)
      as ((_ & _ & Ha) & (_ & _ & Hc) & (_ & _ & Hk) & (_ & _ & Ht)).
    cbn zeta in *. apply weighted_mean_lower; try done; lra.
  - reflexivity.
  - intros sc Hsc. rewrite rank_Permutation. apply Forall_fmap.
    eapply Forall_impl; [exact Hsc|].
    intros kv Hkv. cbn beta. by apply overall_default_bounds.
  - intros s l. apply finalState_scored.
Qed.

Lemma scores_bounded_below_witness :
  Forall (fun row => (5.5 <=? overall row)%float = true)
    (rank (scores (finalState initialState
             [(sampleEnv, AgentDone (Some (JsString.lit "Alpha")) None None)]))
       rubric100) /\
  5.5 <= (exact (acc (scoreOf twentyChars)) * 0 + exact (comp (scoreOf twentyChars)) * 0
          + exact (conc (scoreOf twentyChars)) * 1.5
          + exact (tone (scoreOf twentyChars)) * 0) / (0 + 0 + 1.5 + 0).
Proof.
  destruct scores_bounded_below as (_ & Hmean & _ & Hrank & Hrun).
  split.
  - apply Hrank. apply Hrun. constructor.
  - apply (Hmean twentyChars 0 0 1.5 0); by vm_compute.
Defined.

(** ** Ranking *)

(** C4, as stated, fails: the agents "2" and "1" are scored in this order
    with the same text, their overall scores are the same double, and the
    ranking lists "1" above "2", because [Object.keys] enumerates
    array-index keys first, in ascending numeric order. *)
Lemma rank_tie_not_first_scored :
  map fst numberedScores = [JsString.lit "2"; JsString.lit "1"] /\
  ∃ a b, rank numberedScores rubric100 = [a; b] /\
         role a = JsString.lit "1" /\ role b = JsString.lit "2" /\
         overall a = overall b /\ (overall a =? overall b)%float = true.
Proof.
  split; [reflexivity|].
  eexists _, _. split; [vm_compute; reflexivity|].
  by vm_compute.
Qed.

(** C4, amended: for every score map and every rubric, each row's overall
    is the weighted sum of the four sub-scores divided by the sum of the
    weights, in the arithmetic of doubles, with 1 in place of a sum that is
    zero or not a number; the rows are those of the score map; when every
    overall is a number they are sorted by descending overall (so they are
    for the records made by [recordScore] under the weights of the untouched
    sliders), and rows whose overalls are the same double keep the order in
    which [Object.keys] enumerates the score map.  That order is the first-scored
    order whenever no agent name is an array index (a record that is scored
    again keeps its place); names that are array indices come first, in
    ascending numeric order.  With the scores A:(8,7,6,7), B:(7,8,8,6) and
    the weights 45, 25, 15, 15, the overalls are the doubles 7.3 and 7.25
    and A ranks above B. *)
Theorem rank_sorted_stable (sc : JsObject.t Score) (r : Rubric) :
  let sum := (wa r + wc r + wk r + wt r)%float in
  let rows := map (rowOf r) (JsObject.entries sc) in
  (∀ kv, role (rowOf r kv) = kv.1 /\
         overall (rowOf r kv)
         = ((acc kv.2 * wa r + comp kv.2 * wc r + conc kv.2 * wk r
             + tone kv.2 * wt r) / totalWeight r)%float) /\
  (PrimFloat.is_zero sum = true ∨ PrimFloat.is_nan sum = true →
   totalWeight r = 1%float) /\
  (PrimFloat.is_zero sum = false → PrimFloat.is_nan sum = false →
   totalWeight r = sum) /\
  map role rows = JsObject.keys sc /\
  rank sc r ≡ₚ rows /\
  rows ≡ₚ map (rowOf r) sc /\
  (Forall isNumber rows →
   StronglySorted (fun a b => (overall b <=? overall a)%float = true) (rank sc r)) /\
  (scoredByRecordScore sc →
   StronglySorted (fun a b => (overall b <=? overall a)%float = true)
     (rank sc rubric100)) /\
  (∀ v, filter (tiedAt v) (rank sc r) = filter (tiedAt v) rows) /\
  (Forall (fun kv => JsObject.arrayIndex kv.1 = None) sc →
   JsObject.entries sc = sc) /\
  (∃ idx : list (N * (jsstring * Score)),
     JsObject.entries sc
     = map snd idx ++ filter (fun kv => JsObject.arrayIndex kv.1 = None) sc /\
     Forall (fun p => JsObject.arrayIndex p.2.1 = Some p.1) idx /\
     StronglySorted (fun a b => (a.1 <= b.1)%N) idx) /\
  (∀ k v, map fst (JsObject.set k v sc)
          = if decide (k ∈ map fst sc) then map fst sc else map fst sc ++ [k]) /\
  (∃ a b, rank scoresAB rubric100 = [a; b] /\
          role a = JsString.lit "A" /\ overall a = 7.3%float /\
          role b = JsString.lit "B" /\ overall b = 7.25%float).
Proof.
  cbn zeta. split; [done|].
  split; [intros [H|H]; apply numberOr_falsy; auto|].
  split; [intros; by apply numberOr_truthy|].
  split; [unfold JsObject.keys; by rewrite map_map|].
  split; [apply sortBy_Permutation|].
  split; [by rewrite entries_Permutation|].
  split; [apply rank_sorted|].
  split; [apply rank_sorted_default|].
  split; [apply rank_stable|].
  split; [apply entries_no_index|].
  split; [apply entries_index_first|].
  split; [intros k v; apply set_order|].
  eexists _, _. split; [vm_compute; reflexivity|].
  by vm_compute.
Qed.

Lemma rank_sorted_stable_witness :
  JsObject.entries scoresAB = scoresAB /\
  totalWeight rubric100 = (wa rubric100 + wc rubric100 + wk rubric100 + wt rubric100)%float /\
  StronglySorted (fun a b => (overall b <=? overall a)%float = true)
    (rank scoresAB rubric100).
Proof.
  pose proof (rank_sorted_stable scoresAB rubric100) as H. cbn zeta in H.
  destruct H as (_ & _ & Hsum & _ & _ & _ & Hsorted & _ & _ & Hent & _).
  split; [|split].
  - apply Hent. repeat constructor.
  - apply Hsum; by vm_compute.
  - apply Hsorted. repeat constructor; by vm_compute.
Defined.

(** ** Council selection *)

Lemma selectCouncil_spec (key : jsstring) (s : State) :
  selectCouncil key s
  = mkOutcome (setSelectedCouncil key s)
      match readProperty (councils s !! key) key with
      | Some council => [CouncilShown key council]
      | None => []
      end (inr tt).
Proof.
  unfold selectCouncil, bind, modify, get. cbn.
  by destruct (readProperty (councils s !! key) key).
Qed.




(** ** Task submission *)

Lemma sendTask_running (env : Env) (s : State) :
  isRunning s = true → sendTask env s = mkOutcome s [] (inr tt).
Proof. intros Hr. unfold sendTask, bind, get. cbn. by rewrite Hr. Qed.

Lemma sendTask_empty (env : Env) (s : State) :
  JsString.trim (inputValue env) = [] → sendTask env s = mkOutcome s [] (inr tt).
Proof.
  intros He. unfold sendTask, bind, get. cbn. rewrite He. by destruct (isRunning s).
Qed.

Lemma sendTask_not_open (env : Env) (s : State) :
  isRunning s = false → JsString.trim (inputValue env) ≠ [] → wsOpen s = false →
  sendTask env s
  = mkOutcome s [Append (ErrorMessage (JsString.lit "WebSocket not connected."))]
      (inr tt).
Proof.
  intros Hr He Hw. unfold sendTask, bind, get. cbn. rewrite Hr, Hw.
  by destruct (JsString.trim (inputValue env)).
Qed.

(** An accepted submission. *)
Lemma sendTask_accepted (env : Env) (s : State) :
  isRunning s = false → JsString.trim (inputValue env) ≠ [] → wsOpen s = true →
  let o := sendTask env s in
  result o = inr tt /\
  Send (selectedCouncil s) (JsString.trim (inputValue env)) ∈ effects o /\
  isRunning (post o) = true /\
  timerInterval (post o) = Some (freshTimer env) /\
  sessionStart (post o) = Some (now env) /\
  agentColors (post o) = ∅ /\ nextColorIndex (post o) = 1%positive /\
  scores (post o) = JsObject.empty.
Proof.
  intros Hr He Hw. cbn zeta.
  destruct s as [w cs sel run cols nxt st ti sc]. cbn in Hr, Hw. subst run.
  unfold sendTask, bind, get. cbn. rewrite Hw.
  destruct (JsString.trim (inputValue env)) as [|c t]; [done|].
  destruct (welcomeShown env), ti; cbn;
    split_and!; try done; repeat constructor.
Qed.

(** The outcome of a submission that is not accepted. *)
Lemma sendTask_refused (env : Env) (s : State) :
  isRunning s = true ∨ wsOpen s = false →
  post (sendTask env s) = s /\ result (sendTask env s) = inr tt /\
  effects (sendTask env s)
  = if negb (isRunning s) && negb (bool_decide (JsString.trim (inputValue env) = []))
    then [Append (ErrorMessage (JsString.lit "WebSocket not connected."))]
    else [].
Proof.
  intros Hrej. destruct (isRunning s) eqn:Hr.
  - by rewrite sendTask_running.
  - destruct Hrej as [?|Hw]; [done|].
    destruct (decide (JsString.trim (inputValue env) = [])) as [He|He].
    + rewrite sendTask_empty by done. cbn. by rewrite bool_decide_true.
    + rewrite sendTask_not_open by done. cbn. by rewrite bool_decide_false.
Qed.

(** C2, as stated, fails: while a session runs, [sendTask] returns without
    showing anything to the user. *)
Lemma sendTask_running_is_silent :
  isRunning runningState = true /\
  effects (sendTask sampleEnv runningState) = [].
Proof. split; reflexivity. Qed.

(** C2, amended: a call to [sendTask] made while a session is running or
    while the WebSocket is not open changes nothing in the state, throws
    nothing and sends no task.  It appends the message "WebSocket not
    connected." when no session is running and the input is not empty after
    trimming, and is silent otherwise (in particular whenever a session is
    running). *)
Theorem sendTask_rejected (env : Env) (s : State) :
  isRunning s = true ∨ wsOpen s = false →
  let o := sendTask env s in
  post o = s /\ result o = inr tt /\
  (∀ council task, Send council task ∉ effects o) /\
  effects o
  = if negb (isRunning s) && negb (bool_decide (JsString.trim (inputValue env) = []))
    then [Append (ErrorMessage (JsString.lit "WebSocket not connected."))]
    else [].
Proof.
  intros Hrej. cbn zeta.
  destruct (sendTask_refused env s Hrej) as (Hp & Hr & He).
  split_and!; try done.
  intros council task. rewrite He.
  destruct (_ && _); [|apply not_elem_of_nil].
  intros Hin. apply list_elem_of_singleton in Hin. done.
Qed.

Lemma sendTask_rejected_witness :
  post (sendTask sampleEnv runningState) = runningState /\
  effects (sendTask sampleEnv disconnectedState)
  = [Append (ErrorMessage (JsString.lit "WebSocket not connected."))].
Proof.
  split.
  - apply (sendTask_rejected sampleEnv runningState). left. reflexivity.
  - apply (sendTask_rejected sampleEnv disconnectedState). right. reflexivity.
Defined.

(** ** Event dispatch *)

(** Destructures the state and the optional fields of an event, then
    evaluates the handler. *)
Ltac run_handler s :=
  destruct s as [w cs sel run cols nxt st ti sc];
  unfold deliver, tryCatch, handleEvent, addAgentCard, colorIndex, readProperty,
    recordScore, renderScoreboard, updateInputState, stopTimer, addError,
    addStatus, addRoundSeparator, appendMessage, bind, get, modify, emit, ret,
    throw;
  cbn.

(** What [colorIndex(agent)] returns in the state [s]. *)
Lemma colorIndex_result (agent : jsstring) (s : State) :
  result (colorIndex agent s)
  = inr (default (Own (nextColorIndex s))
           (readProperty (agentColors s !! agent) agent)).
Proof.
  unfold colorIndex, readProperty, bind, get, modify, ret. cbn.
  destruct (agentColors s !! agent); cbn; [done|].
  by destruct (inheritedName agent).
Qed.






Lemma trimStart_head (c : jsstring) (u : N) (r : jsstring) :
  JsString.trimStart c = u :: r → JsString.is_space u = false.
Proof.
  induction c as [|v c IH]; cbn; [done|].
  destruct (JsString.is_space v) eqn:Hv; [done|]. by intros [= <- _].
Qed.









(** ** The session life cycle *)

(** What a delivery does to the running flag and to the clock. *)
Lemma deliver_session (s : State) (ee : Env * Event) :
  let o := deliver s ee in
  if isTerminal ee.2 then
    isRunning (post o) = false /\ timerInterval (post o) = None /\
    clockStops (s, o) = match timerInterval s with Some _ => 1%nat | None => 0%nat end
  else
    isRunning (post o) = isRunning s /\ timerInterval (post o) = timerInterval s /\
    clockStops (s, o) = 0%nat.
Proof.
  destruct ee as [env e]. cbn zeta. unfold clockStops.
  destruct e as [c|r t|a c m|c m|c| | |]; run_handler s;
    try done.
  - by destruct c.
  - destruct a as [a|]; cbn; agent_cases; done.
  - by destruct ti.
  - by destruct ti.
Qed.



Lemma finalState_cons (s : State) (ee : Env * Event) (l : list (Env * Event)) :
  finalState s (ee :: l) = finalState (post (deliver s ee)) l.
Proof. reflexivity. Qed.







(** ** The message handler of the WebSocket *)

(** C7: when the payload is not valid JSON, so that [JSON.parse] throws,
    the message handler returns normally, performs no effect (nothing is
    rendered, nothing is sent, no timer is touched) and leaves the state as
    it was. *)
Theorem onmessage_invalid_json
    (JSON_parse : jsstring → option Event) (env : Env) (data : jsstring)
    (s : State) :
  JSON_parse data = None →
  result (parseData JSON_parse data s) = inl SyntaxError /\
  onmessage JSON_parse env data s = mkOutcome s [] (inr tt).
Proof.
  intros Hbad. unfold onmessage, tryCatch, bind, parseData. rewrite Hbad. done.
Qed.

Lemma onmessage_invalid_json_witness :
  onmessage parseEmptyObject sampleEnv (JsString.lit "{oops") runningState
  = mkOutcome runningState [] (inr tt).
Proof.
  apply (onmessage_invalid_json parseEmptyObject sampleEnv (JsString.lit "{oops")
           runningState).
  reflexivity.
Defined.

(** ** The colour assigner *)

Lemma nextIndex_paletteIndex (k : nat) :
  nextIndex (paletteIndex k) = paletteIndex (S k).
Proof.
  unfold paletteIndex.
  replace (S k) with (k + 1)%nat by lia.
  rewrite <- (Nat.Div0.add_mod_idemp_l k 1 5).
  pose proof (Nat.mod_upper_bound k 5 ltac:(lia)) as Hlt.
  destruct (k mod 5)%nat as [|[|[|[|[|m]]]]]; try reflexivity. lia.
Qed.

Lemma paletteIndex_range (k : nat) : (1 <= paletteIndex k <= 5)%positive.
Proof.
  unfold paletteIndex.
  pose proof (Nat.mod_upper_bound k 5 ltac:(lia)) as Hlt. lia.
Qed.



Lemma colorIndex_seen (r : jsstring) (s : State) (i : positive) :
  agentColors s !! r = Some i → colorIndex r s = mkOutcome s [] (inr (Own i)).
Proof. intros Hi. unfold colorIndex, bind, get. cbn. by rewrite Hi. Qed.

Lemma colorIndex_fresh (r : jsstring) (s : State) :
  agentColors s !! r = None → inheritedName r = false →
  colorIndex r s
  = mkOutcome (setColors (<[r := nextColorIndex s]> (agentColors s))
                 (nextIndex (nextColorIndex s)) s) [] (inr (Own (nextColorIndex s))).
Proof.
  intros Hi Hr. unfold colorIndex, readProperty, bind, get. cbn. by rewrite Hi, Hr.
Qed.

(** A name that [state.agentColors] inherits gets no colour. *)
Lemma colorIndex_inherited (r : jsstring) (s : State) :
  agentColors s !! r = None → inheritedName r = true →
  colorIndex r s = mkOutcome s [] (inr (Inherited r)).
Proof.
  intros Hi Hr. unfold colorIndex, readProperty, bind, get. cbn. by rewrite Hi, Hr.
Qed.

Lemma assignable_cons (r : jsstring) (l : list jsstring) :
  assignable (r :: l) = if inheritedName r then assignable l else r :: assignable l.
Proof.
  unfold assignable. rewrite filter_cons.
  destruct (inheritedName r); [by rewrite decide_False | by rewrite decide_True].
Qed.

Lemma assignable_app (l1 l2 : list jsstring) :
  assignable (l1 ++ l2) = assignable l1 ++ assignable l2.
Proof. apply filter_app. Qed.

Lemma coloured_step (names : list jsstring) (s : State) (r : jsstring) :
  coloured names s →
  coloured (firstSeenAfter names (assignable [r])) (post (colorIndex r s)).
Proof.
  intros (Hnd & Hown & Hidx & Hout & Hnext).
  rewrite assignable_cons. cbn [assignable filter list_filter firstSeenAfter].
  destruct (decide (r ∈ names)) as [Hin|Hnin].
  - assert (inheritedName r = false) as Hr
      by (rewrite Forall_forall in Hown; by apply Hown).
    rewrite Hr. cbn [firstSeenAfter]. rewrite decide_True by done.
    apply list_elem_of_lookup in Hin as [k Hk].
    rewrite (colorIndex_seen r s _ (Hidx k r Hk)). done.
  - destruct (inheritedName r) eqn:Hr; cbn [firstSeenAfter].
    { rewrite (colorIndex_inherited r s (Hout r Hnin) Hr). done. }
    rewrite decide_False by done.
    rewrite (colorIndex_fresh r s (Hout r Hnin) Hr).
    unfold coloured. cbn [post agentColors nextColorIndex setColors].
    split_and!.
    + apply NoDup_app. split_and!; [done | | apply NoDup_singleton].
      intros x Hx Hx'. apply list_elem_of_singleton in Hx'. by subst.
    + apply Forall_app. split; [done | by repeat constructor].
    + intros k r' Hk. destruct (decide (r' = r)) as [->|Hne].
      * rewrite lookup_insert_eq. f_equal.
        apply lookup_app_Some in Hk as [Hk|[Hlen Hk]].
        { exfalso. apply Hnin. apply list_elem_of_lookup. eauto. }
        apply list_lookup_singleton_Some in Hk as [Hk _].
        rewrite Hnext. f_equal. lia.
      * rewrite lookup_insert_ne by done. apply Hidx.
        apply lookup_app_Some in Hk as [Hk|[Hlen Hk]]; [done|].
        apply list_lookup_singleton_Some in Hk as [_ Hk]. done.
    + intros r' Hr'. rewrite not_elem_of_app, list_elem_of_singleton in Hr'.
      destruct Hr' as [Hr1 Hr2]. rewrite lookup_insert_ne by done. by apply Hout.
    + rewrite Hnext, nextIndex_paletteIndex, length_app. cbn. f_equal. lia.
Qed.

Lemma coloured_ext (names : list jsstring) (s s' : State) :
  agentColors s' = agentColors s → nextColorIndex s' = nextColorIndex s →
  coloured names s → coloured names s'.
Proof. unfold coloured. by intros -> ->. Qed.

Lemma firstSeenAfter_app (seen l1 l2 : list jsstring) :
  firstSeenAfter seen (l1 ++ l2) = firstSeenAfter (firstSeenAfter seen l1) l2.
Proof. revert seen. induction l1 as [|r l1 IH]; intros seen; cbn; [done | apply IH]. Qed.

Lemma colorIndexAll_coloured (l names : list jsstring) (s : State) :
  coloured names s →
  coloured (firstSeenAfter names (assignable l)) (colorIndexAll l s).
Proof.
  revert names s. induction l as [|r l IH]; intros names s Hc; [done|].
  change (r :: l) with ([r] ++ l).
  rewrite assignable_app, firstSeenAfter_app.
  cbn [app colorIndexAll]. apply IH. by apply coloured_step.
Qed.

(** The colour map and the counter after a delivery are those that the
    calls to [colorIndex] of that delivery leave. *)
Lemma deliver_colours (s : State) (ee : Env * Event) :
  agentColors (post (deliver s ee)) = agentColors (colorIndexAll (colouredBy ee.2) s) /\
  nextColorIndex (post (deliver s ee))
  = nextColorIndex (colorIndexAll (colouredBy ee.2) s).
Proof.
  destruct ee as [env e].
  destruct e as [c|r t|a c m|c m|c| | |]; run_handler s; try done.
  - by destruct c.
  - destruct a as [a|]; cbn; agent_cases; done.
  - by destruct ti.
  - by destruct ti.
Qed.


Lemma coloured_reset (s : State) :
  agentColors s = ∅ → nextColorIndex s = 1%positive → coloured [] s.
Proof.
  intros Hm Hn. split_and!; [constructor | constructor | done | | done].
  intros r _. by rewrite Hm.
Qed.


(** An assignment, once made, survives every delivery. *)
Lemma deliver_keeps_colour (s : State) (ee : Env * Event) (r : jsstring) (i : positive) :
  agentColors s !! r = Some i → agentColors (post (deliver s ee)) !! r = Some i.
Proof.
  intros Hi. destruct (deliver_colours s ee) as [-> _].
  destruct (colouredBy ee.2) as [|a [|b l]] eqn:Hcol.
  - done.
  - cbn [colorIndexAll]. destruct (agentColors s !! a) as [j|] eqn:Ha.
    + by rewrite (colorIndex_seen a s j Ha).
    + destruct (inheritedName a) eqn:Hinh.
      * by rewrite (colorIndex_inherited a s Ha Hinh).
      * rewrite (colorIndex_fresh a s Ha Hinh). cbn [post agentColors setColors].
        rewrite lookup_insert_ne; [done | congruence].
  - by destruct ee.2.
Qed.


Lemma clearChat_resets (s : State) :
  agentColors (post (clearChat s)) = ∅ /\
  nextColorIndex (post (clearChat s)) = 1%positive.
Proof.
  destruct s as [w cs sel run cols nxt st ti sc].
  unfold clearChat, stopTimer, bind, get, modify, emit, ret. cbn.
  by destruct ti.
Qed.





(** * Further properties of the page's code *)

(** ** Events *)

Lemma keys_nil_iff {V} (o : JsObject.t V) : JsObject.keys o = [] ↔ o = [].
Proof.
  split; [|by intros ->].
  intros Hk. apply (f_equal length) in Hk.
  unfold JsObject.keys in Hk. rewrite length_map in Hk.
  rewrite (Permutation_length (entries_Permutation o)) in Hk.
  by destruct o.
Qed.

Lemma updateRubric_spec (env : Env) (s : State) :
  updateRubric env s
  = (s, RubricLabels
        :: if bool_decide (scores s = []) then []
           else [Core (ScoreList (rank (scores s) (getRubric env)))]).
Proof.
  unfold updateRubric.
  destruct (decide (scores s = [])) as [He|Hne].
  - rewrite !bool_decide_true; [done | done | by apply keys_nil_iff].
  - rewrite !bool_decide_false; [done | done | by rewrite keys_nil_iff].
Qed.

Lemma handleEvent_error_post (env : Env) (s : State) (c : option jsstring) :
  post (handleEvent env (Error c) s) = setTimerInterval None (setIsRunning false s).
Proof. run_handler s. by destruct ti. Qed.

(** X1: an [error] event ends the session without a ranking: the running
    flag is cleared and the clock stopped, nothing else in the state
    changes (the scores recorded so far stay), the input is enabled again
    and the last thing appended is the error text, or "Unknown error" when
    the event has no text.  The scores that stay are ranked by the next
    slider change. *)
Theorem error_aborts_session (env : Env) (s : State) (c : option jsstring) :
  let o := handleEvent env (Error c) s in
  result o = inr tt /\
  post o = setTimerInterval None (setIsRunning false s) /\
  effects o
  = InputDisabled false
    :: match timerInterval s with Some id => [ClearInterval id] | None => [] end
    ++ [Append (ErrorMessage
                  match c with
                  | Some (u :: t) => u :: t
                  | _ => JsString.lit "Unknown error"
                  end)] /\
  (∀ env', scores s ≠ [] →
     (updateRubric env' (post o)).2
     = [RubricLabels; Core (ScoreList (rank (scores s) (getRubric env')))]).
Proof.
  cbn zeta. split_and!.
  - run_handler s. by destruct ti.
  - apply handleEvent_error_post.
  - run_handler s. destruct ti, c as [[|u t]|]; done.
  - intros env' Hs. rewrite handleEvent_error_post, updateRubric_spec.
    cbn [snd scores setTimerInterval setIsRunning].
    by rewrite bool_decide_false.
Qed.

Lemma error_aborts_session_witness :
  (updateRubric sampleEnv
     (post (handleEvent sampleEnv (Error None)
        (post (handleEvent sampleEnv
           (AgentDone (Some (JsString.lit "Alpha")) None None) runningState))))).2
  = [RubricLabels;
     Core (ScoreList
       (rank [(JsString.lit "Alpha", scoreOf noResponse)] (getRubric sampleEnv)))].
Proof.
  pose proof (error_aborts_session sampleEnv
           (post (handleEvent sampleEnv
              (AgentDone (Some (JsString.lit "Alpha")) None None) runningState))
           None) as H.
  cbn zeta in H. destruct H as (_ & _ & _ & H).
  apply (H sampleEnv). discriminate.
Defined.

(** X2: [status], [round_start], [moderator_done], events of an unknown
    type and the value null leave the whole state as it was, whether a
    session runs or not; null and a [status] without text are dropped
    without any effect. *)
Theorem informational_events_keep_state (env : Env) (s : State) (e : Event) :
  informational e = true →
  post (deliver s (env, e)) = s /\
  result (deliver s (env, e)) = inr tt /\
  (e = Null ∨ e = Other ∨ e = Status None → effects (deliver s (env, e)) = []).
Proof.
  intros He. destruct e as [c|r t|a c m|c m|c| | |]; try done; run_handler s;
    try destruct c; (split_and!; [done | done | try done; intros [?|[?|?]]; done]).
Qed.

Lemma informational_events_keep_state_witness :
  post (deliver runningState (sampleEnv, RoundStart (Some 2) (Some 3))) = runningState.
Proof.
  apply (informational_events_keep_state sampleEnv runningState
           (RoundStart (Some 2) (Some 3))).
  reflexivity.
Defined.

Lemma isPrefix_spec (p t : jsstring) :
  JsString.isPrefix p t = true ↔ ∃ b, t = p ++ b.
Proof.
  revert t. induction p as [|a p IH]; intros t; cbn.
  - split; [intros _; by exists t | done].
  - destruct t as [|b t]; [split; [done | by intros [? ?]]|].
    rewrite andb_true_iff, N.eqb_eq, IH. split.
    + intros [-> [r ->]]. by exists r.
    + intros [r [= -> ->]]. split; [done | by exists r].
Qed.

Lemma includes_spec (p t : jsstring) :
  JsString.includes p t = true ↔ ∃ a b, t = a ++ p ++ b.
Proof.
  induction t as [|c t IH]; cbn; rewrite orb_true_iff, isPrefix_spec.
  - split.
    + intros [[b Hb]|?]; [|done]. by exists [], b.
    + intros (a & b & Hab). left.
      destruct a; [by exists b|done].
  - rewrite IH. split.
    + intros [[b Hb]|(a & b & ->)]; [by exists [], b | by exists (c :: a), b].
    + intros ([|c' a] & b & Hab).
      * left. by exists b.
      * right. injection Hab as -> ->. by exists a, b.
Qed.

(** X3: a [status] line is appended with its text, the state unchanged,
    and it carries the spinner exactly when the text does not contain
    "complete". *)
Theorem status_spinner (env : Env) (s : State) (t : jsstring) :
  ∃ spinner,
    handleEvent env (Status (Some t)) s
    = mkOutcome s [Append (StatusMessage spinner t)] (inr tt) /\
    (spinner = false ↔ ∃ a b, t = a ++ JsString.lit "complete" ++ b).
Proof.
  eexists. split; [reflexivity|].
  rewrite negb_false_iff. apply includes_spec.
Qed.

(** ** Task submission, continued *)

Lemma trimStart_split (c : jsstring) :
  ∃ p, c = p ++ JsString.trimStart c /\ allSpace p.
Proof.
  induction c as [|u c (p & IH & Hp)]; cbn.
  { exists []. split; [done | constructor]. }
  destruct (JsString.is_space u) eqn:Hu.
  - exists (u :: p). split; [cbn; by f_equal | by constructor].
  - exists []. split; [done | constructor].
Qed.

Lemma trimStart_id (u : N) (t : jsstring) :
  notSpace u → JsString.trimStart (u :: t) = u :: t.
Proof. unfold notSpace. intros Hu. cbn. by rewrite Hu. Qed.

(** [trim] removes white space at both ends and nothing else. *)
Lemma trim_spec (c : jsstring) :
  ∃ a b, c = a ++ JsString.trim c ++ b /\ allSpace a /\ allSpace b /\
         (JsString.trim c = [] ∨
          ∃ u v, head (JsString.trim c) = Some u /\ notSpace u /\
                 last (JsString.trim c) = Some v /\ notSpace v).
Proof.
  unfold JsString.trim.
  destruct (trimStart_split c) as (a & Hc & Ha).
  destruct (trimStart_split (reverse (JsString.trimStart c))) as (p & Hx & Hp).
  set (x := JsString.trimStart c) in *.
  set (y := JsString.trimStart (reverse x)) in *.
  assert (x = reverse y ++ reverse p) as Hxy.
  { rewrite <- reverse_app, <- Hx. by rewrite reverse_involutive. }
  exists a, (reverse p). split_and!.
  - by rewrite <- Hxy.
  - done.
  - unfold allSpace in *. by apply Forall_reverse.
  - destruct y as [|v y'] eqn:Hy; [by left|]. right.
    pose proof (trimStart_head _ _ _ Hy) as Hv.
    destruct (reverse (v :: y')) as [|u r] eqn:Hr.
    { apply (f_equal length) in Hr. rewrite length_reverse in Hr. done. }
    exists u, v. split_and!.
    + done.
    + apply (trimStart_head c u (r ++ reverse p)). fold x. by rewrite Hxy.
    + rewrite <- Hr. rewrite reverse_cons. apply last_snoc.
    + done.
Qed.

Lemma trim_idempotent (c : jsstring) :
  JsString.trim (JsString.trim c) = JsString.trim c.
Proof.
  destruct (trim_spec c) as (_ & _ & _ & _ & _ & [->|(u & v & Hu & Hnu & Hv & Hnv)]);
    [done|].
  destruct (JsString.trim c) as [|u' t]; [done|]. injection Hu as ->.
  unfold JsString.trim. rewrite (trimStart_id u t Hnu).
  destruct (reverse (u :: t)) as [|v' r] eqn:Hr.
  { apply (f_equal length) in Hr. rewrite length_reverse in Hr. done. }
  assert (v' = v) as ->.
  { apply (f_equal reverse) in Hr. rewrite reverse_involutive, reverse_cons in Hr.
    rewrite Hr, last_snoc in Hv. by injection Hv. }
  rewrite (trimStart_id v r Hnv). rewrite <- Hr. apply reverse_involutive.
Qed.

Lemma sendTask_accepted_effects (env : Env) (s : State) :
  isRunning s = false → JsString.trim (inputValue env) ≠ [] → wsOpen s = true →
  filter (fun e => isSend e = true) (effects (sendTask env s))
  = [Send (selectedCouncil s) (JsString.trim (inputValue env))].
Proof.
  intros Hr He Hw.
  destruct s as [w cs sel run cols nxt st ti sc]. cbn in Hr, Hw. subst run.
  unfold sendTask, bind, get. cbn. rewrite Hw.
  destruct (JsString.trim (inputValue env)) as [|c t]; [done|].
  by destruct (welcomeShown env), ti.
Qed.

(** X4: an accepted submission sends exactly one task message, for the
    council that is selected at that moment (whether or not the
    configuration has it) and with the trimmed input as its text: the input
    without the white space at its two ends, not empty, and trimming it
    again changes nothing.  The session is Running afterwards, and a
    second submission right away does nothing at all. *)
Theorem accepted_task_is_trimmed (env : Env) (s : State) :
  isRunning s = false → wsOpen s = true → JsString.trim (inputValue env) ≠ [] →
  let task := JsString.trim (inputValue env) in
  let o := sendTask env s in
  filter (fun e => isSend e = true) (effects o) = [Send (selectedCouncil s) task] /\
  (∃ a b, inputValue env = a ++ task ++ b /\ allSpace a /\ allSpace b) /\
  (∃ u v, head task = Some u /\ notSpace u /\ last task = Some v /\ notSpace v) /\
  JsString.trim task = task /\
  isRunning (post o) = true /\
  (∀ env', sendTask env' (post o) = mkOutcome (post o) [] (inr tt)).
Proof.
  intros Hr Hw He. cbn zeta.
  destruct (trim_spec (inputValue env)) as (a & b & Hab & Ha & Hb & Htrim).
  destruct (sendTask_accepted env s Hr He Hw) as (_ & _ & Hrun & _).
  split_and!.
  - by apply sendTask_accepted_effects.
  - by exists a, b.
  - by destruct Htrim.
  - apply trim_idempotent.
  - done.
  - intros env'. by apply sendTask_running.
Qed.

Lemma accepted_task_is_trimmed_witness :
  filter (fun e => isSend e = true)
    (effects (sendTask
       (mkEnv (JsString.lit "  why?  ") false 5%N 9%positive nan nan nan nan)
       readyState))
  = [Send (JsString.lit "general") (JsString.lit "why?")].
Proof.
  apply (accepted_task_is_trimmed
           (mkEnv (JsString.lit "  why?  ") false 5%N 9%positive nan nan nan nan)
           readyState); [reflexivity | reflexivity | by vm_compute].
Defined.

(** ** What the actions on the page keep *)

(** Evaluates an action on a destructured state. *)
Ltac run_action s :=
  destruct s as [w cs sel run cols nxt st ti sc];
  unfold act, core, updateRubric, loadConfigThen, loadConfigCatch, connectWs,
    onopen, onclose, onerror, clearChat, selectCouncil, sendTask,
    deliver, tryCatch, handleEvent, addAgentCard, colorIndex, readProperty,
    recordScore, renderScoreboard, updateInputState, stopTimer, startTimer,
    addError, addStatus, addUserMessage, addRoundSeparator, appendMessage,
    bind, get, modify, emit, ret, throw;
  cbn.

Lemma act_keeps_running (a : Action) (s : State) :
  isRunning s = true → endsSession a = false →
  isRunning (act a s).1 = true /\
  Forall (fun e => isTaskSent e = false) (act a s).2.
Proof.
  intros Hr Ha. destruct a as [env|env e| |key|env|cfg|msg| | | | |r].
  - unfold act, core. rewrite sendTask_running by done. cbn. by split.
  - destruct e as [c|r t|a c m|c m|c| | |]; try discriminate; run_action s;
      cbn in Hr; subst run.
    + destruct c; by repeat constructor.
    + by repeat constructor.
    + destruct a as [a|]; cbn; agent_cases; by repeat constructor.
    + by repeat constructor.
    + by repeat constructor.
    + by repeat constructor.
  - run_action s. cbn in Hr. subst run. destruct ti; cbn; by repeat constructor.
  - run_action s. cbn in Hr. subst run. agent_cases; by repeat constructor.
  - cbn [act]. rewrite updateRubric_spec. cbn. split; [done|].
    destruct (bool_decide _); by repeat constructor.
  - run_action s. cbn in Hr. subst run. agent_cases; by repeat constructor.
  - run_action s. by repeat constructor.
  - run_action s. by repeat constructor.
  - run_action s. by repeat constructor.
  - run_action s. by repeat constructor.
  - run_action s. by repeat constructor.
  - run_action s. cbn in Hr. subst run. destruct w; by repeat constructor.
Qed.

Lemma actAll_cons (a : Action) (l : list Action) (s : State) :
  actAll (a :: l) s
  = ((actAll l (act a s).1).1, (act a s).2 ++ (actAll l (act a s).1).2).
Proof. reflexivity. Qed.

(** X5: once a session is running, nothing but the delivery of an [error]
    or [council_done] event ends it.  Clearing the chat, selecting a
    council, moving a slider, a configuration reload, the loss and the
    re-opening of the connection, every other event and further
    submissions leave it running, and none of them sends a task.  The
    delivery of [error] or [council_done] always leaves the session idle. *)
Theorem only_terminal_event_ends_session (l : list Action) (s : State) :
  isRunning s = true →
  Forall (fun a => endsSession a = false) l →
  isRunning (actAll l s).1 = true /\
  Forall (fun e => isTaskSent e = false) (actAll l s).2 /\
  (∀ env e s', isTerminal e = true → isRunning (act (Deliver env e) s').1 = false).
Proof.
  intros Hr Hl. split_and!.
  - revert s Hr. induction Hl as [|a l Ha Hl IH]; intros s Hr; [done|].
    rewrite actAll_cons. cbn [fst]. apply IH. by apply act_keeps_running.
  - revert s Hr. induction Hl as [|a l Ha Hl IH]; intros s Hr; [constructor|].
    rewrite actAll_cons. cbn [snd].
    destruct (act_keeps_running a s Hr Ha) as [Hr' Hs].
    apply Forall_app. split; [done | by apply IH].
  - intros env e s' He. unfold act, core. cbn [fst].
    pose proof (deliver_session s' (env, e)) as Hd. cbn zeta in Hd.
    cbn [snd] in Hd. rewrite He in Hd. tauto.
Qed.

Lemma only_terminal_event_ends_session_witness :
  isRunning
    (actAll [ClearSession; SocketClosed; Connect; ReadyStateChanged OPEN;
             SocketOpened; Submit sampleEnv; Select (JsString.lit "coding")]
       runningState).1 = true.
Proof.
  apply (only_terminal_event_ends_session
           [ClearSession; SocketClosed; Connect; ReadyStateChanged OPEN;
            SocketOpened; Submit sampleEnv; Select (JsString.lit "coding")]
           runningState); [reflexivity | by repeat constructor].
Defined.

Lemma liveTimers_app (live : list positive) (l1 l2 : list PageEffect) :
  liveTimers live (l1 ++ l2) = liveTimers (liveTimers live l1) l2.
Proof. apply fold_left_app. Qed.

Ltac clock_close :=
  unfold clockInvariant, liveTimers; cbn; repeat case_decide;
  first [ done
        | split; [done | first [done | by intros [? ?]
                                | (intros _; split; [done | by eexists])]] ].

Lemma act_clock (a : Action) (s : State) (live : list positive) :
  clockInvariant s live →
  clockInvariant (act a s).1 (liveTimers live (act a s).2).
Proof.
  intros [-> Hrun].
  destruct a as [env|env e| |key|env|cfg|msg| | | | |r].
  - run_action s. cbn in Hrun.
    destruct run; [clock_close|].
    destruct (JsString.trim (inputValue env)) as [|c t]; [clock_close|].
    destruct w as [[]|]; try clock_close.
    destruct (welcomeShown env), ti; clock_close.
  - destruct e as [c|r t|a c m|c m|c| | |]; run_action s; cbn in Hrun;
      try clock_close.
    + destruct c; clock_close.
    + destruct a as [a|]; cbn; agent_cases; clock_close.
    + destruct ti; clock_close.
    + destruct ti; clock_close.
  - run_action s. destruct ti; clock_close.
  - run_action s. cbn in Hrun. agent_cases; clock_close.
  - cbn [act]. rewrite updateRubric_spec. cbn [fst snd].
    destruct s as [w cs sel run cols nxt st ti sc]. cbn in Hrun.
    destruct (bool_decide _); clock_close.
  - run_action s. cbn in Hrun. agent_cases; clock_close.
  - run_action s. clock_close.
  - run_action s. clock_close.
  - run_action s. clock_close.
  - run_action s. clock_close.
  - run_action s. clock_close.
  - run_action s. cbn in Hrun. destruct w; clock_close.
Qed.

Lemma actAll_clock (l : list Action) (s : State) (live : list positive) :
  clockInvariant s live →
  clockInvariant (actAll l s).1 (liveTimers live (actAll l s).2).
Proof.
  revert s live. induction l as [|a l IH]; intros s live Hinv; [done|].
  rewrite actAll_cons. cbn [fst snd]. rewrite liveTimers_app.
  apply IH. by apply act_clock.
Qed.

(** X6: the elapsed-time clock never leaks.  Whatever happens on the page
    from its initial state (submissions, events, clearing, council and
    slider changes, configuration and connection events, in any order),
    the interval timers that were set and not cleared are exactly the one
    that [state.timerInterval] holds, so there is never more than one; and
    a timer is held only while a session is running and has a start
    time. *)
Theorem clock_never_leaks (l : list Action) :
  let s := (actAll l initialState).1 in
  let live := liveTimers [] (actAll l initialState).2 in
  live = optionList (timerInterval s) /\
  (length live <= 1)%nat /\
  (is_Some (timerInterval s) → isRunning s = true /\ is_Some (sessionStart s)).
Proof.
  cbn zeta.
  destruct (actAll_clock l initialState []) as [Hlive Hrun].
  { split; [done | by intros [? ?]]. }
  split_and!; [done | | done].
  rewrite Hlive. destruct (timerInterval _); cbn; lia.
Qed.

Lemma clock_never_leaks_witness :
  let l := [ConfigLoaded (mkConfig None None); Connect; ReadyStateChanged OPEN;
            Submit sampleEnv; ClearSession; Deliver sampleEnv CouncilDone;
            Submit sampleEnv] in
  isRunning (actAll l initialState).1 = true /\
  liveTimers [] (actAll l initialState).2 = [7%positive].
Proof.
  cbn zeta.
  pose proof (clock_never_leaks
    [ConfigLoaded (mkConfig None None); Connect; ReadyStateChanged OPEN;
     Submit sampleEnv; ClearSession; Deliver sampleEnv CouncilDone;
     Submit sampleEnv]) as H.
  cbn zeta in H. destruct H as (Hlive & _ & Hrun).
  split.
  - apply Hrun. by eexists.
  - rewrite Hlive. reflexivity.
Defined.

Lemma deliver_scores (s : State) (env : Env) (e : Event) :
  scores (post (deliver s (env, e)))
  = match e with
    | AgentDone (Some a) c _ =>
        if decide (a = protoKey) then scores s
        else JsObject.set a (scoreOf (visibleContent c)) (scores s)
    | _ => scores s
    end.
Proof.
  destruct e as [c|r t|a c m|c m|c| | |]; run_handler s; try done.
  - by destruct c.
  - destruct a as [a|]; cbn; agent_cases; done.
  - by destruct ti.
  - by destruct ti.
Qed.

Lemma set_NoDup {V} (k : jsstring) (v : V) (o : JsObject.t V) :
  NoDup (map fst o) → NoDup (map fst (JsObject.set k v o)).
Proof.
  intros Hnd. rewrite set_order. case_decide as Hin; [done|].
  apply NoDup_app. split_and!; [done | | apply NoDup_singleton].
  intros x Hx Hx'. apply list_elem_of_singleton in Hx'. by subst.
Qed.

Lemma set_Forall_key {V} (P : jsstring * V → Prop) (k : jsstring) (v : V)
    (o : JsObject.t V) :
  P (k, v) → Forall P o → Forall P (JsObject.set k v o).
Proof.
  intros Hv. induction 1 as [|[k' v'] o Hkv Ho IH]; cbn.
  - by repeat constructor.
  - destruct (decide (k = k')) as [->|?]; constructor; auto.
Qed.

Lemma get_Some_elem {V} (k : jsstring) (v : V) (o : JsObject.t V) :
  JsObject.get k o = Some v → (k, v) ∈ o.
Proof.
  induction o as [|[k' v'] o IH]; cbn; [done|].
  destruct (decide (k = k')) as [->|?].
  - intros [= ->]. left.
  - intros Hg. right. auto.
Qed.

Lemma get_None_Forall {V} (k : jsstring) (o : JsObject.t V) :
  Forall (fun kv => kv.1 ≠ k) o → JsObject.get k o = None.
Proof.
  induction 1 as [|[k' v'] o Hkv Ho IH]; cbn; [done|].
  cbn in Hkv. by rewrite decide_False.
Qed.

Lemma colorIndex_assigns (a : jsstring) (s : State) :
  inheritedName a = false → is_Some (agentColors (post (colorIndex a s)) !! a).
Proof.
  intros Hinh. destruct (agentColors s !! a) as [i|] eqn:Ha.
  - rewrite (colorIndex_seen a s i Ha). cbn. by rewrite Ha.
  - rewrite (colorIndex_fresh a s Ha Hinh). cbn [post agentColors setColors].
    rewrite lookup_insert_eq. by eexists.
Qed.

Lemma sendTask_post (env : Env) (s : State) :
  post (sendTask env s) = s ∨
  (agentColors (post (sendTask env s)) = ∅ /\
   nextColorIndex (post (sendTask env s)) = 1%positive /\
   scores (post (sendTask env s)) = []).
Proof.
  destruct (isRunning s) eqn:Hr; [left; by rewrite sendTask_running|].
  destruct (decide (JsString.trim (inputValue env) = [])) as [He|He];
    [left; by rewrite sendTask_empty|].
  destruct (wsOpen s) eqn:Hw.
  - right. destruct (sendTask_accepted env s Hr He Hw)
      as (_ & _ & _ & _ & _ & ? & ? & ?). done.
  - left. by rewrite sendTask_not_open.
Qed.

Lemma clearChat_scores (s : State) : scores (post (clearChat s)) = [].
Proof.
  destruct s as [w cs sel run cols nxt st ti sc].
  unfold clearChat, stopTimer, bind, get, modify, emit, ret. cbn.
  by destruct ti.
Qed.

Lemma consistent_reset (s : State) :
  agentColors s = ∅ → nextColorIndex s = 1%positive → scores s = [] →
  sessionConsistent s.
Proof.
  intros Hm Hn Hs. unfold sessionConsistent, scoredByRecordScore. rewrite Hs.
  split_and!; [| constructor | constructor | constructor].
  exists []. by apply coloured_reset.
Qed.

Lemma consistent_ext (s s' : State) :
  agentColors s' = agentColors s → nextColorIndex s' = nextColorIndex s →
  scores s' = scores s → sessionConsistent s → sessionConsistent s'.
Proof. unfold sessionConsistent, coloured. by intros -> -> ->. Qed.

Lemma deliver_consistent (s : State) (env : Env) (e : Event) :
  sessionConsistent s → sessionConsistent (post (deliver s (env, e))).
Proof.
  intros ([names Hc] & Hnd & Hsc & Hcol).
  destruct (deliver_colours s (env, e)) as [Hm Hn].
  pose proof (deliver_scores s env e) as Hs.
  assert (Forall (fun kv => kv.1 ≠ protoKey /\
                    (inheritedName kv.1 = false →
                     is_Some (agentColors (post (deliver s (env, e))) !! kv.1)))
            (scores s)) as Hcol'.
  { eapply Forall_impl; [exact Hcol|]. intros kv [Hne Hi]. split; [done|].
    intros Hinh. destruct (Hi Hinh) as [i Hi'].
    exists i. by apply deliver_keeps_colour. }
  split_and!.
  - exists (firstSeenAfter names (assignable (colouredBy e))).
    eapply coloured_ext; [exact Hm | exact Hn |].
    by apply colorIndexAll_coloured.
  - rewrite Hs. destruct e as [| |[a|] c m| | | | |]; try done.
    case_decide; [done | by apply set_NoDup].
  - by apply deliver_scored.
  - rewrite Hs. destruct e as [| |[a|] c m| | | | |]; try done.
    case_decide as Ha; [done|].
    apply set_Forall_key; [|done]. cbn [fst]. split; [done|]. intros Hinh.
    rewrite Hm. cbn [colouredBy snd keyOf colorIndexAll]. by apply colorIndex_assigns.
Qed.

Lemma act_consistent (a : Action) (s : State) :
  sessionConsistent s → sessionConsistent (act a s).1.
Proof.
  intros Hs. destruct a as [env|env e| |key|env|cfg|msg| | | | |r].
  - unfold act, core. cbn [fst].
    destruct (sendTask_post env s) as [->|(Hm & Hn & Hsc)]; [done|].
    by apply consistent_reset.
  - by apply deliver_consistent.
  - unfold act, core. cbn [fst].
    destruct (clearChat_resets s) as [Hm Hn].
    apply consistent_reset; [done | done | apply clearChat_scores].
  - eapply consistent_ext; [| | | exact Hs]; unfold act, core;
      by rewrite selectCouncil_spec.
  - cbn [act]. by rewrite updateRubric_spec.
  - eapply consistent_ext; [| | | exact Hs]; unfold act, loadConfigThen;
      by rewrite selectCouncil_spec.
  - done.
  - done.
  - done.
  - done.
  - done.
  - eapply consistent_ext; [| | | exact Hs]; run_action s; by destruct w.
Qed.

Lemma actAll_consistent (l : list Action) (s : State) :
  sessionConsistent s → sessionConsistent (actAll l s).1.
Proof.
  revert s. induction l as [|a l IH]; intros s Hs; [done|].
  rewrite actAll_cons. cbn [fst]. apply IH. by apply act_consistent.
Qed.

Lemma coloured_range (names : list jsstring) (s : State) (r : jsstring) (i : positive) :
  coloured names s → agentColors s !! r = Some i →
  (1 <= i <= 5)%positive /\ inheritedName r = false.
Proof.
  intros (_ & Hown & Hidx & Hout & _) Hi.
  destruct (decide (r ∈ names)) as [Hin|Hnin].
  - split; [|rewrite Forall_forall in Hown; by apply Hown].
    apply list_elem_of_lookup in Hin as [k Hk].
    rewrite (Hidx k r Hk) in Hi. injection Hi as <-. apply paletteIndex_range.
  - by rewrite (Hout r Hnin) in Hi.
Qed.

(** X7: in every state that the page can reach from its initial state,
    the colour map and the score map fit together: every assigned colour
    and the counter lie in 1..5, no name of a member of [Object.prototype]
    has a colour, the colours are those of the other distinct agent names
    in the order of their first appearance, the score map has one record
    per agent, each computed by [recordScore], and none under the name
    [__proto__]; every agent with a score has a colour, unless its name is
    that of a member of [Object.prototype]. *)
Theorem reachable_session_consistent (l : list Action) :
  let s := (actAll l initialState).1 in
  (∃ names, coloured names s) /\
  (∀ r i, agentColors s !! r = Some i →
          (1 <= i <= 5)%positive /\ inheritedName r = false) /\
  (1 <= nextColorIndex s <= 5)%positive /\
  NoDup (map fst (scores s)) /\
  scoredByRecordScore (scores s) /\
  JsObject.get protoKey (scores s) = None /\
  (∀ a, is_Some (JsObject.get a (scores s)) → inheritedName a = false →
        is_Some (agentColors s !! a)).
Proof.
  cbn zeta.
  destruct (actAll_consistent l initialState) as ([names Hc] & Hnd & Hsc & Hcol).
  { by apply consistent_reset. }
  split; [by exists names|].
  split; [intros r i; by apply (coloured_range names)|].
  split; [destruct Hc as (_ & _ & _ & _ & ->); apply paletteIndex_range|].
  split; [done|]. split; [done|]. split.
  - apply get_None_Forall. eapply Forall_impl; [exact Hcol|]. by intros kv [? _].
  - intros a [v Hv] Hinh. apply get_Some_elem in Hv.
    rewrite Forall_forall in Hcol. by apply (Hcol (a, v) Hv).
Qed.

Lemma reachable_session_consistent_witness :
  let s := (actAll [Connect; ReadyStateChanged OPEN; Submit sampleEnv;
                    Deliver sampleEnv
                      (AgentDone (Some (JsString.lit "Alpha")) None None)]
              initialState).1 in
  is_Some (agentColors s !! JsString.lit "Alpha").
Proof.
  cbn zeta.
  pose proof (reachable_session_consistent
    [Connect; ReadyStateChanged OPEN; Submit sampleEnv;
     Deliver sampleEnv (AgentDone (Some (JsString.lit "Alpha")) None None)]) as H.
  cbn zeta in H. destruct H as (_ & _ & _ & _ & _ & _ & H).
  apply H; [by eexists | by vm_compute].
Defined.

(** ** The score map over a run *)

Lemma lastAnswer_cons (a : jsstring) (ee : Env * Event) (l : list (Env * Event)) :
  lastAnswer a (ee :: l)
  = match lastAnswer a l with Some c => Some c | None => answerOf a ee end.
Proof.
  unfold lastAnswer. cbn [omap list_omap].
  destruct (answerOf a ee) as [c|]; [|by destruct (last _)].
  destruct (omap (answerOf a) l) as [|c' r] eqn:Hl; [done|].
  rewrite last_cons. by destruct (last (c' :: r)) eqn:Hlast.
Qed.

Lemma finalState_get (l : list (Env * Event)) (s : State) (a : jsstring) :
  JsObject.get a (scores (finalState s l))
  = if decide (a = protoKey) then JsObject.get a (scores s)
    else match lastAnswer a l with
         | Some text => Some (scoreOf text)
         | None => JsObject.get a (scores s)
         end.
Proof.
  revert s. induction l as [|[env e] l IH]; intros s; [by case_decide|].
  rewrite finalState_cons, lastAnswer_cons, IH, deliver_scores.
  unfold answerOf. cbn [snd].
  destruct (decide (a = protoKey)) as [Ha|Ha].
  - destruct e as [| |[a'|] c m| | | | |]; try done.
    case_decide as Ha'; [done|]. apply get_set_ne. congruence.
  - destruct (lastAnswer a l) as [text|]; [done|].
    destruct e as [| |[a'|] c m| | | | |]; try done.
    destruct (decide (a' = a)) as [->|Hne].
    + rewrite decide_False by done. apply get_set_eq.
    + case_decide; [done|]. apply get_set_ne. congruence.
Qed.

(** X8: the last answer wins.  After a run of deliveries, the score record
    that [state.scores] owns for an agent is the one computed from the
    visible text of its last [agent_done] event of the run; an agent that
    did not answer in the run keeps the record it had, if any.  The one
    exception is the name [__proto__]: whatever arrives under it, the score
    map owns after the run what it owned before. *)
Theorem last_answer_wins (l : list (Env * Event)) (s : State) (a : jsstring) :
  (a ≠ protoKey →
   JsObject.get a (scores (finalState s l))
   = match lastAnswer a l with
     | Some text => Some (scoreOf text)
     | None => JsObject.get a (scores s)
     end) /\
  JsObject.get protoKey (scores (finalState s l)) = JsObject.get protoKey (scores s).
Proof.
  split.
  - intros Ha. by rewrite finalState_get, decide_False.
  - by rewrite finalState_get, decide_True.
Qed.

Lemma last_answer_wins_witness :
  let l := [(sampleEnv, AgentDone (Some (JsString.lit "Alpha"))
                          (Some (JsString.lit "first")) None);
            (sampleEnv, AgentDone (Some protoKey) (Some (JsString.lit "other")) None);
            (sampleEnv, AgentDone (Some (JsString.lit "Alpha"))
                          (Some (JsString.lit "second")) None)] in
  JsObject.get (JsString.lit "Alpha") (scores (finalState runningState l))
  = Some (scoreOf (JsString.lit "second")).
Proof.
  cbn zeta.
  apply (last_answer_wins
           [(sampleEnv, AgentDone (Some (JsString.lit "Alpha"))
                          (Some (JsString.lit "first")) None);
            (sampleEnv, AgentDone (Some protoKey) (Some (JsString.lit "other")) None);
            (sampleEnv, AgentDone (Some (JsString.lit "Alpha"))
                          (Some (JsString.lit "second")) None)]
           runningState (JsString.lit "Alpha")).
  by vm_compute.
Defined.

(** ** Ranking again *)

Lemma subScores_rowOf (r1 r2 : Rubric) (sc : JsObject.t Score) :
  map subScores (map (rowOf r1) sc) = map subScores (map (rowOf r2) sc).
Proof. rewrite !map_map. by apply map_ext. Qed.

(** X9: moving a slider ranks the cached scores again and nothing else.
    [updateRubric] leaves the state as it is and renders the ranking under
    the new weights exactly when there is at least one score.  Whatever the
    weights, the ranking has one row per record of the score map, with the
    same agent names and sub-scores: only the overall values and the order
    depend on the weights. *)
Theorem rerank_keeps_rows (sc : JsObject.t Score) (r1 r2 : Rubric) :
  map subScores (rank sc r1) ≡ₚ map subScores (rank sc r2) /\
  map role (rank sc r1) ≡ₚ map fst sc /\
  (NoDup (map fst sc) → NoDup (map role (rank sc r1))) /\
  (∀ env s, (updateRubric env s).1 = s /\
            (scores s = [] → (updateRubric env s).2 = [RubricLabels]) /\
            (scores s ≠ [] →
             (updateRubric env s).2
             = [RubricLabels; Core (ScoreList (rank (scores s) (getRubric env)))])).
Proof.
  assert (map role (rank sc r1) ≡ₚ map fst sc) as Hroles.
  { rewrite rank_Permutation, map_map. by apply Permutation_map. }
  split_and!.
  - rewrite !rank_Permutation. by rewrite (subScores_rowOf r1 r2).
  - done.
  - intros Hnd. by rewrite Hroles.
  - intros env s. rewrite updateRubric_spec. cbn [fst snd]. split_and!.
    + done.
    + intros He. by rewrite bool_decide_true.
    + intros Hne. by rewrite bool_decide_false.
Qed.

Lemma rerank_keeps_rows_witness :
  NoDup (map role (rank scoresAB rubric100)).
Proof.
  apply (rerank_keeps_rows scoresAB rubric100 rubric100).
  refine (bool_decide_unpack _ _). by vm_compute.
Defined.

Lemma numberOr_number (v d : float) :
  PrimFloat.is_zero d = false → PrimFloat.is_nan d = false →
  PrimFloat.is_zero (numberOr v d) = false /\ PrimFloat.is_nan (numberOr v d) = false.
Proof.
  intros Hz Hn. unfold numberOr.
  destruct (PrimFloat.is_nan v) eqn:Hv; [done|].
  by destruct (PrimFloat.is_zero v) eqn:Hv'.
Qed.

Lemma numberOr_atDefault (v d : float) : atDefault d v → numberOr v d = d.
Proof.
  intros [->|[Hz|Hn]].
  - unfold numberOr. by destruct (_ || _).
  - apply numberOr_falsy. by right.
  - apply numberOr_falsy. by left.
Qed.

(** X10: the weights that [getRubric] reads are never zero and never NaN:
    a slider at zero, or whose value is not a number, counts with its
    default 45, 25, 15 or 15, any other value counts as it is.  While every
    slider is at its default, or at zero, the weights are 45, 25, 15 and
    15, the divisor is 100, and every overall score of the rendered ranking
    lies between 6.2 and 8.9 when the records were made by
    [recordScore]. *)
Theorem getRubric_defaults (env : Env) :
  let r := getRubric env in
  ((PrimFloat.is_zero (wa r) = false /\ PrimFloat.is_nan (wa r) = false) /\
   (PrimFloat.is_zero (wc r) = false /\ PrimFloat.is_nan (wc r) = false) /\
   (PrimFloat.is_zero (wk r) = false /\ PrimFloat.is_nan (wk r) = false) /\
   (PrimFloat.is_zero (wt r) = false /\ PrimFloat.is_nan (wt r) = false)) /\
  (∀ v d, (PrimFloat.is_nan v = true ∨ PrimFloat.is_zero v = true →
           numberOr v d = d) /\
          (PrimFloat.is_nan v = false → PrimFloat.is_zero v = false →
           numberOr v d = v)) /\
  (atDefault 45 (rubricA env) → atDefault 25 (rubricC env) →
   atDefault 15 (rubricK env) → atDefault 15 (rubricT env) →
   r = rubric100 /\ totalWeight r = 100%float /\
   ∀ sc, scoredByRecordScore sc →
         Forall (fun row => ((6.2 <=? overall row) = true /\
                             (overall row <=? 8.9) = true)%float) (rank sc r)).
Proof.
  cbn zeta. split; [|split].
  - split_and!; by apply numberOr_number.
  - intros v d. split; [apply numberOr_falsy | apply numberOr_truthy].
  - intros Ha Hc Hk Ht.
    assert (getRubric env = rubric100) as ->.
    { unfold getRubric.
      by rewrite (numberOr_atDefault _ _ Ha), (numberOr_atDefault _ _ Hc),
        (numberOr_atDefault _ _ Hk), (numberOr_atDefault _ _ Ht). }
    split; [done|]. split; [reflexivity|].
    intros sc Hsc. rewrite rank_Permutation. apply Forall_fmap.
    eapply Forall_impl; [exact Hsc|].
    intros kv Hkv. cbn beta. by destruct (overall_default_bounds kv Hkv) as (_ & ? & ?).
Qed.

Lemma getRubric_defaults_witness :
  getRubric zeroSliderEnv = rubric100 /\
  totalWeight (getRubric zeroSliderEnv) = 100%float.
Proof.
  pose proof (getRubric_defaults zeroSliderEnv) as H.
  cbn zeta in H. destruct H as (_ & _ & H).
  destruct H as (H1 & H2 & _).
  - right. left. reflexivity.
  - left. reflexivity.
  - left. reflexivity.
  - left. reflexivity.
  - split; [exact H1 | exact H2].
Defined.

(** ** The scoring heuristic, continued *)

Lemma splitFrom_nonempty (b : bool) (c : jsstring) : JsString.splitFrom b c ≠ [].
Proof.
  revert b. induction c as [|u c IH]; intros b; cbn; [done|].
  destruct (JsString.is_space u); [by destruct b|].
  by destruct (JsString.splitFrom false c).
Qed.

Lemma splitFrom_cons_length (b : bool) (u : N) (c : jsstring) :
  length (JsString.splitFrom b (u :: c))
  = if JsString.is_space u
    then (if b then length (JsString.splitFrom true c)
          else S (length (JsString.splitFrom true c)))
    else length (JsString.splitFrom false c).
Proof.
  cbn. destruct (JsString.is_space u); [by destruct b|].
  pose proof (splitFrom_nonempty false c).
  by destruct (JsString.splitFrom false c).
Qed.

Lemma splitFrom_length_pattern (b : bool) (c1 c2 : jsstring) :
  map JsString.is_space c1 = map JsString.is_space c2 →
  length (JsString.splitFrom b c1) = length (JsString.splitFrom b c2).
Proof.
  revert b c2. induction c1 as [|u c1 IH]; intros b [|v c2] Hmap; try done.
  injection Hmap as Huv Hmap. rewrite !splitFrom_cons_length, <- Huv.
  destruct (JsString.is_space u); [destruct b|]; by rewrite (IH _ c2 Hmap).
Qed.

Lemma splitFrom_append_word (b : bool) (c t : jsstring) :
  Forall notSpace t →
  length (JsString.splitFrom b (c ++ t)) = length (JsString.splitFrom b c).
Proof.
  intros Ht. revert b. induction c as [|u c IH]; intros b.
  - cbn [app]. revert b. induction Ht as [|v t Hv Ht IHt]; intros b; [done|].
    rewrite splitFrom_cons_length. unfold notSpace in Hv. rewrite Hv. by rewrite IHt.
  - rewrite <- app_comm_cons, !splitFrom_cons_length.
    destruct (JsString.is_space u); [destruct b|]; by rewrite IH.
Qed.

(** X11: the score of a text depends on nothing but the places of its
    white space: two texts with white space at the same positions get the
    same record, whatever their other characters are.  Nor does it grow
    with the length: 60 more characters without white space at the end of
    a text leave all four sub-scores as they were. *)
Theorem score_is_structural :
  (∀ c1 c2 : jsstring,
     map JsString.is_space c1 = map JsString.is_space c2 →
     scoreOf c1 = scoreOf c2) /\
  (∀ c t : jsstring,
     Forall notSpace t → length t = 60%nat → scoreOf (c ++ t) = scoreOf c).
Proof.
  split.
  - intros c1 c2 Hmap. unfold scoreOf, JsString.split_ws.
    rewrite (splitFrom_length_pattern false c1 c2 Hmap).
    apply (f_equal length) in Hmap. rewrite !length_map in Hmap.
    by rewrite Hmap.
  - intros c t Ht Hlen. unfold scoreOf, JsString.split_ws.
    rewrite (splitFrom_append_word false c t Ht), length_app, Hlen.
    replace ((length c + 60) mod 30)%nat with (length c mod 30)%nat
      by (symmetry; apply (Nat.Div0.mod_add (length c) 2 30)).
    replace ((length c + 60) mod 20)%nat with (length c mod 20)%nat
      by (symmetry; apply (Nat.Div0.mod_add (length c) 3 20)).
    done.
Qed.

Lemma score_is_structural_witness :
  scoreOf (JsString.lit "yes no") = scoreOf (JsString.lit "abc de").
Proof.
  apply (proj1 score_is_structural). reflexivity.
Defined.

(** ** Numbers as text *)

Lemma digitsLE_value (fuel : nat) (n : N) :
  (n < 2 ^ N.of_nat fuel)%N → valueLE (digitsLE fuel n) = n.
Proof.
  revert n. induction fuel as [|f IH]; intros n Hn.
  - cbn in Hn. assert (n = 0%N) as -> by lia. done.
  - cbn [digitsLE valueLE foldr].
    pose proof (N.div_mod n 10 ltac:(lia)) as Hdm.
    destruct (n <? 10)%N eqn:Hlt.
    + apply N.ltb_lt in Hlt. cbn. rewrite N.mod_small by done. lia.
    + fold (valueLE (digitsLE f (n / 10))). rewrite IH; [lia|].
      rewrite Nat2N.inj_succ, N.pow_succ_r' in Hn.
      apply N.Div0.div_lt_upper_bound. lia.
Qed.

Lemma digitsLE_small (fuel : nat) (n : N) :
  Forall (fun d => (d < 10)%N) (digitsLE fuel n).
Proof.
  revert n. induction fuel as [|f IH]; intros n; cbn; [constructor|].
  constructor; [apply N.mod_lt; lia|].
  destruct (n <? 10)%N; [constructor | apply IH].
Qed.

Lemma digitsValue_snoc (t : jsstring) (u : N) :
  JsObject.digitsValue (t ++ [u]) = (10 * JsObject.digitsValue t + (u - 48))%N.
Proof. unfold JsObject.digitsValue. by rewrite fold_left_app. Qed.

Lemma digitsValue_reverse (ds : list N) :
  JsObject.digitsValue (reverse (map (N.add 48) ds)) = valueLE ds.
Proof.
  induction ds as [|d ds IH]; [done|].
  cbn [map]. rewrite reverse_cons, digitsValue_snoc, IH.
  unfold valueLE. cbn [foldr]. lia.
Qed.

Lemma log2_fuel (n : N) : (n < 2 ^ N.of_nat (S (N.to_nat (N.log2 n))))%N.
Proof.
  rewrite Nat2N.inj_succ, N2Nat.id.
  destruct (decide (n = 0%N)) as [->|Hn]; [done|].
  apply N.log2_spec. lia.
Qed.

(** Reading the decimal text of a number gives the number back. *)
Lemma decimal_value (n : N) : JsObject.digitsValue (decimal n) = n.
Proof.
  unfold decimal. rewrite digitsValue_reverse.
  apply digitsLE_value, log2_fuel.
Qed.

Lemma decimal_digits (n : N) : Forall isDigit (decimal n).
Proof.
  unfold decimal. apply Forall_reverse, Forall_fmap.
  eapply Forall_impl; [apply digitsLE_small|].
  intros d Hd. unfold isDigit, JsObject.is_digit. cbn beta in *.
  apply andb_true_iff. split; apply N.leb_le; lia.
Qed.

Lemma decimal_length_1 (n : N) : (n < 10)%N → length (decimal n) = 1%nat.
Proof.
  intros Hn. unfold decimal. rewrite length_reverse, length_map. cbn.
  apply N.ltb_lt in Hn. by rewrite Hn.
Qed.

Lemma decimal_length_2 (n : N) :
  (10 <= n)%N →
  (2 <= length (decimal n))%nat /\ ((n < 100)%N → length (decimal n) = 2%nat).
Proof.
  intros Hn. unfold decimal. rewrite length_reverse, length_map.
  assert (1 <= N.log2 n)%N as Hlog by (apply N.log2_le_pow2; cbn; lia).
  destruct (N.to_nat (N.log2 n)) as [|f] eqn:Hf; [lia|].
  cbn [digitsLE]. assert ((n <? 10)%N = false) as -> by (apply N.ltb_ge; lia).
  cbn [length]. split; [lia|].
  intros Hlt. assert ((n / 10 <? 10)%N = true) as ->; [|done].
  apply N.ltb_lt, N.Div0.div_lt_upper_bound. lia.
Qed.

Lemma pad_nat (k : N) :
  pad (Z.of_N k) = if (k <? 10)%N then 48%N :: decimal k else decimal k.
Proof.
  unfold pad, numberToString.
  assert ((Z.of_N k <? 0)%Z = false) as -> by (apply Z.ltb_ge; lia).
  rewrite N2Z.id.
  destruct (k <? 10)%N eqn:Hk.
  - apply N.ltb_lt in Hk.
    assert ((Z.of_N k <? 10)%Z = true) as -> by (apply Z.ltb_lt; lia). done.
  - apply N.ltb_ge in Hk.
    assert ((Z.of_N k <? 10)%Z = false) as -> by (apply Z.ltb_ge; lia). done.
Qed.

Lemma pad_spec (k : N) :
  JsObject.digitsValue (pad (Z.of_N k)) = k /\
  Forall isDigit (pad (Z.of_N k)) /\
  (2 <= length (pad (Z.of_N k)))%nat /\
  ((k < 100)%N → length (pad (Z.of_N k)) = 2%nat).
Proof.
  rewrite pad_nat. destruct (k <? 10)%N eqn:Hk.
  - apply N.ltb_lt in Hk. split_and!.
    + change (JsObject.digitsValue (48%N :: decimal k))
        with (JsObject.digitsValue (decimal k)).
      apply decimal_value.
    + constructor; [done | apply decimal_digits].
    + cbn [length]. rewrite decimal_length_1 by done. lia.
    + intros _. cbn [length]. by rewrite decimal_length_1.
  - apply N.ltb_ge in Hk. destruct (decimal_length_2 k Hk) as [H2 H100].
    split_and!; [apply decimal_value | apply decimal_digits | done | done].
Qed.

(** X12: while the clock of a session that started at [start] ticks and
    the system time has not gone back, the text of the session timer is
    minutes, a colon and seconds; both parts are decimal digits, the
    seconds are always two digits, the minutes at least two, and they read
    back as the whole seconds elapsed, divided by 60 and modulo 60. *)
Theorem timer_text_format (now start : N) (s : State) :
  sessionStart s = Some start → (start <= now)%N →
  let secs := ((now - start) / 1000)%N in
  ∃ mm ss,
    timerText now s = mm ++ [58%N] ++ ss /\
    Forall isDigit mm /\ Forall isDigit ss /\
    (2 <= length mm)%nat /\ length ss = 2%nat /\
    JsObject.digitsValue mm = (secs / 60)%N /\
    JsObject.digitsValue ss = (secs mod 60)%N.
Proof.
  intros Hs Hle. unfold timerText. rewrite Hs.
  change (default 0%N (Some start)) with start. cbn zeta.
  set (secs := ((now - start) / 1000)%N).
  assert (((Z.of_N now - Z.of_N start) / 1000)%Z = Z.of_N secs) as ->.
  { unfold secs. rewrite N2Z.inj_div, N2Z.inj_sub by done. done. }
  assert ((Z.of_N secs / 60)%Z = Z.of_N (secs / 60)) as ->
    by (by rewrite N2Z.inj_div).
  assert (Z.rem (Z.of_N secs) 60 = Z.of_N (secs mod 60)) as ->.
  { rewrite Z.rem_mod_nonneg by lia. by rewrite N2Z.inj_mod. }
  destruct (pad_spec (secs / 60)) as (Hv1 & Hd1 & Hl1 & _).
  destruct (pad_spec (secs mod 60)) as (Hv2 & Hd2 & _ & Hl2).
  exists (pad (Z.of_N (secs / 60))), (pad (Z.of_N (secs mod 60))).
  split_and!; try done.
  apply Hl2. pose proof (N.mod_lt secs 60 ltac:(lia)). lia.
Qed.

Lemma timer_text_format_witness :
  ∃ mm ss,
    timerText 75999%N runningState = mm ++ [58%N] ++ ss /\
    JsObject.digitsValue mm = 1%N /\ JsObject.digitsValue ss = 14%N.
Proof.
  destruct (timer_text_format 75999%N 1000%N runningState eq_refl)
    as (mm & ss & Ht & _ & _ & _ & _ & Hm & Hs); [done|].
  exists mm, ss. split; [exact Ht|]. split; [exact Hm | exact Hs].
Defined.

(** ** Cosmetic statistics *)

Lemma getAgentStats_consistent (role : jsstring) (cache : gmap jsstring AgentStats) :
  cacheConsistent cache →
  (getAgentStats role cache).1
  = (if inheritedName role then Inherited role else Own (statsOf role)) /\
  cacheConsistent (getAgentStats role cache).2.
Proof.
  intros Hc. unfold getAgentStats, readProperty.
  destruct (cache !! role) as [st|] eqn:Hr; cbn.
  - destruct (Hc role st Hr) as [-> ->]. done.
  - destruct (inheritedName role) eqn:Hinh; cbn; [done|].
    split; [done|]. intros r st Hst.
    destruct (decide (role = r)) as [->|Hne].
    + rewrite lookup_insert_eq in Hst. by injection Hst as <-.
    + rewrite lookup_insert_ne in Hst by done. by apply Hc.
Qed.

Lemma getAgentStatsAll_consistent (l : list jsstring)
    (cache : gmap jsstring AgentStats) :
  cacheConsistent cache → cacheConsistent (getAgentStatsAll l cache).
Proof.
  revert cache. induction l as [|r l IH]; intros cache Hc; [done|].
  apply IH. by apply getAgentStats_consistent.
Qed.

(** X13: the statistics that [getAgentStats] computes are made from the
    first code unit of the agent's name alone (65 for an empty name): the
    throughput is a whole number from 20 to 59 shown with ".0", the memory
    a whole number from 3 to 11 shown with ".0 GB", the latency a whole
    number from 80 to 239 shown with " ms".  The cache does not change what
    is returned: after any earlier calls, [getAgentStats] returns these
    values, except for the name of a member of [Object.prototype], for
    which it returns that member (whose statistics are undefined) and
    computes nothing. *)
Theorem agent_stats_bounded (role : jsstring) :
  (∃ t v l : N,
     statsOf role
     = mkAgentStats (decimal t ++ JsString.lit ".0")
         (decimal v ++ JsString.lit ".0 GB") (decimal l ++ JsString.lit " ms") /\
     (20 <= t <= 59)%N /\ (3 <= v <= 11)%N /\ (80 <= l <= 239)%N) /\
  (∀ u r1 r2, statsOf (u :: r1) = statsOf (u :: r2)) /\
  statsOf [] = statsOf [65%N] /\
  (∀ earlier,
     (getAgentStats role (getAgentStatsAll earlier ∅)).1
     = if inheritedName role then Inherited role else Own (statsOf role)) /\
  (getAgentStats (JsString.lit "constructor") ∅).1
  = Inherited (JsString.lit "constructor").
Proof.
  split_and!.
  - exists (20 + (statSeed role * 7) mod 40)%N, (3 + (statSeed role * 3) mod 9)%N,
      (80 + (statSeed role * 11) mod 160)%N.
    split; [reflexivity|].
    pose proof (N.mod_lt (statSeed role * 7) 40 ltac:(lia)).
    pose proof (N.mod_lt (statSeed role * 3) 9 ltac:(lia)).
    pose proof (N.mod_lt (statSeed role * 11) 160 ltac:(lia)).
    generalize dependent ((statSeed role * 7) mod 40)%N.
    generalize dependent ((statSeed role * 3) mod 9)%N.
    generalize dependent ((statSeed role * 11) mod 160)%N.
    intros. split_and!; lia.
  - done.
  - done.
  - intros earlier. apply getAgentStats_consistent, getAgentStatsAll_consistent.
    intros r st Hst. by rewrite lookup_empty in Hst.
  - by vm_compute.
Qed.

(** ** Configuration *)

(** X14: when the configuration arrives, the councils are those of the
    response (none when it has no [councils]) and the selected council is
    the default of the response, or "general" when the response has none or
    an empty one; it is selected whether or not it is among the councils,
    and the next accepted task is sent for it.  The session (running flag,
    colours, scores, clock, socket) is not touched.  The council list is
    rendered, and the topbar is written when the read of the key in the
    councils finds something: a council of the configuration, or the
    member of [Object.prototype] that the key names.  A failed load only
    appends "Failed to load config: " and the reason. *)
Theorem loadConfig_selects_default (cfg : Config) (s : State) :
  let s' := (loadConfigThen cfg s).1 in
  let key := match cfgDefault cfg with
             | Some (u :: t) => u :: t
             | _ => JsString.lit "general"
             end in
  s' = setSelectedCouncil key (setCouncils (default ∅ (cfgCouncils cfg)) s) /\
  (loadConfigThen cfg s).2
  = CouncilList (councils s') key
    :: match readProperty (councils s' !! key) key with
       | Some c => [Core (CouncilShown key c)]
       | None => []
       end /\
  (∀ env, isRunning s = false → wsOpen s = true →
          JsString.trim (inputValue env) ≠ [] →
          filter (fun e => isSend e = true) (effects (sendTask env s'))
          = [Send key (JsString.trim (inputValue env))]) /\
  (∀ message,
     loadConfigCatch message s
     = (s, [Core (Append (ErrorMessage
                            (JsString.lit "Failed to load config: " ++ message)))])).
Proof.
  cbn zeta.
  assert (orElse (default [] (cfgDefault cfg)) (JsString.lit "general")
          = match cfgDefault cfg with
            | Some (u :: t) => u :: t
            | _ => JsString.lit "general"
            end) as Hkey by (by destruct (cfgDefault cfg) as [[|u t]|]).
  assert ((loadConfigThen cfg s).1
          = setSelectedCouncil
              match cfgDefault cfg with
              | Some (u :: t) => u :: t
              | _ => JsString.lit "general"
              end (setCouncils (default ∅ (cfgCouncils cfg)) s)) as Hpost.
  { unfold loadConfigThen. cbn zeta. rewrite selectCouncil_spec. cbn [fst post].
    cbn [selectedCouncil setSelectedCouncil]. rewrite Hkey.
    by destruct s. }
  split_and!.
  - done.
  - rewrite Hpost. unfold loadConfigThen. cbn zeta. rewrite selectCouncil_spec.
    cbn [snd effects selectedCouncil setSelectedCouncil councils setCouncils].
    rewrite Hkey. f_equal.
    by destruct (readProperty _ _).
  - intros env Hr Hw He. rewrite Hpost.
    by rewrite sendTask_accepted_effects.
  - done.
Qed.

Lemma loadConfig_selects_default_witness :
  filter (fun e => isSend e = true)
    (effects (sendTask sampleEnv
       (loadConfigThen (mkConfig None (Some (JsString.lit "coding"))) readyState).1))
  = [Send (JsString.lit "coding") (JsString.lit "X")].
Proof.
  pose proof (loadConfig_selects_default
    (mkConfig None (Some (JsString.lit "coding"))) readyState) as H.
  cbn zeta in H. destruct H as (_ & _ & H & _).
  apply (H sampleEnv); [reflexivity | reflexivity | by vm_compute].
Defined.

(** ** Connection *)

Lemma reconnectDelays_core (l : list Effect) : reconnectDelays (map Core l) = [].
Proof. induction l as [|e l IH]; [done | exact IH]. Qed.

Lemma act_reconnects (a : Action) (s : State) :
  reconnectDelays (act a s).2 = if isSocketClosed a then [2000%N] else [].
Proof.
  destruct a as [env|env e| |key|env|cfg|msg| | | | |r]; cbn [act isSocketClosed];
    unfold core, loadConfigThen, loadConfigCatch; cbn [snd];
    try apply reconnectDelays_core; done.
Qed.

Lemma reconnectDelays_app (l1 l2 : list PageEffect) :
  reconnectDelays (l1 ++ l2) = reconnectDelays l1 ++ reconnectDelays l2.
Proof. apply omap_app. Qed.

(** X15: every close of the socket schedules one reconnection, 2000 ms
    later, and nothing else schedules one: over any sequence of actions the
    scheduled delays are as many as the closes and all equal to 2000.  The
    open, close and error handlers do not touch the state, so a running
    session stays running through a connection loss.  [connectWs] installs
    a socket that is still connecting, and until the browser opens it a
    submission is answered with "WebSocket not connected." and sends
    nothing. *)
Theorem reconnect_after_every_close (l : list Action) (s : State) :
  reconnectDelays (actAll l s).2
  = replicate (length (filter (fun a => isSocketClosed a = true) l)) 2000%N /\
  (act SocketOpened s).1 = s /\ (act SocketClosed s).1 = s /\
  (act SocketFailed s).1 = s /\
  (act Connect s).1 = setWs (Some CONNECTING) s /\
  (∀ env, isRunning s = false → JsString.trim (inputValue env) ≠ [] →
     sendTask env (act Connect s).1
     = mkOutcome (act Connect s).1
         [Append (ErrorMessage (JsString.lit "WebSocket not connected."))] (inr tt)).
Proof.
  split_and!; try done.
  - revert s. induction l as [|a l IH]; intros s; [done|].
    rewrite actAll_cons. cbn [snd]. rewrite reconnectDelays_app, act_reconnects, IH.
    rewrite filter_cons. destruct (isSocketClosed a).
    + by rewrite decide_True.
    + by rewrite decide_False.
  - intros env Hr He. by apply sendTask_not_open.
Qed.

Lemma reconnect_after_every_close_witness :
  effects (sendTask sampleEnv (act Connect readyState).1)
  = [Append (ErrorMessage (JsString.lit "WebSocket not connected."))].
Proof.
  pose proof (reconnect_after_every_close [] readyState) as H.
  destruct H as (_ & _ & _ & _ & _ & H).
  rewrite (H sampleEnv); [reflexivity | reflexivity | by vm_compute].
Defined.

(** ** System gauges *)

Lemma last_omap_cons {A B} (f : A → option B) (x : A) (l : list A) :
  last (omap f (x :: l))
  = match last (omap f l) with Some y => Some y | None => f x end.
Proof.
  cbn [omap list_omap].
  destruct (f x) as [y|]; [|by destruct (last _)].
  destruct (omap f l) as [|y' r] eqn:Hl; [done|].
  rewrite last_cons. by destruct (last (y' :: r)).
Qed.

Lemma fetchHudAll_metric (l : list (option SystemInfo)) (h : HudData) :
  hudCpu (fetchHudAll l h) = default (hudCpu h) (lastReported sysCpu l) /\
  hudRam (fetchHudAll l h) = default (hudRam h) (lastReported sysRam l) /\
  hudGpu (fetchHudAll l h) = default (hudGpu h) (lastReported sysGpu l) /\
  hudVram (fetchHudAll l h) = default (hudVram h) (lastReported sysVram l) /\
  hudTps (fetchHudAll l h) = hudTps h.
Proof.
  revert h. induction l as [|d l IH]; intros h; [done|].
  unfold lastReported in *. rewrite !last_omap_cons.
  change (fetchHudAll (d :: l) h) with (fetchHudAll l (fetchHud d h)).
  destruct (IH (fetchHud d h)) as (-> & -> & -> & -> & ->).
  split_and!; try done;
    match goal with |- context [last ?x] => destruct (last x) end; try done;
    by destruct d as [[[?|] [?|] [?|] [?|]]|].
Qed.

(** X16: each gauge holds the last value that any health response so far
    has reported for its metric, and its initial value when none has: a
    response without [system], or without the metric, leaves the gauge as
    it is.  The throughput is never changed by a response, and applying the
    same response twice is the same as applying it once. *)
Theorem gauges_keep_last_known (l : list (option SystemInfo)) (h : HudData) :
  hudCpu (fetchHudAll l h) = default (hudCpu h) (lastReported sysCpu l) /\
  hudRam (fetchHudAll l h) = default (hudRam h) (lastReported sysRam l) /\
  hudGpu (fetchHudAll l h) = default (hudGpu h) (lastReported sysGpu l) /\
  hudVram (fetchHudAll l h) = default (hudVram h) (lastReported sysVram l) /\
  hudTps (fetchHudAll l h) = hudTps h /\
  (∀ d, fetchHud d (fetchHud d h) = fetchHud d h).
Proof.
  destruct (fetchHudAll_metric l h) as (? & ? & ? & ? & ?).
  split_and!; try done.
  intros [[[a|] [b|] [c|] [d|]]|]; done.
Qed.

(** ** The body of a card *)

Lemma escapeHtml_markupFree (s : jsstring) : markupFree (escapeHtml s).
Proof.
  induction s as [|u s IH]; [constructor|].
  cbn [escapeHtml]. apply Forall_app. split; [|exact IH].
  destruct (u =? 38)%N; [by repeat constructor|].
  destruct (u =? 160)%N; [by repeat constructor|].
  destruct (u =? 60)%N eqn:H60; [by repeat constructor|].
  destruct (u =? 62)%N eqn:H62; [by repeat constructor|].
  apply N.eqb_neq in H60, H62. by repeat constructor.
Qed.

Lemma escapeHtml_plain (s : jsstring) :
  Forall (fun u => u ≠ 38%N /\ u ≠ 160%N /\ u ≠ 60%N /\ u ≠ 62%N) s →
  escapeHtml s = s.
Proof.
  induction 1 as [|u s (H1 & H2 & H3 & H4) Hs IH]; [done|].
  cbn [escapeHtml]. apply N.eqb_neq in H1, H2, H3, H4.
  rewrite H1, H2, H3, H4, IH. done.
Qed.

Lemma ciPrefix_length (p s : jsstring) :
  ciPrefix p s = true → (length p <= length s)%nat.
Proof.
  revert s. induction p as [|a p IH]; intros [|b s]; cbn; try done; [lia|].
  intros [_ H]%andb_true_iff. apply IH in H. lia.
Qed.

(** The two parts that [splitAtCi] returns are the text before and after
    a piece as long as the pattern. *)
Lemma splitAtCi_spec (p s before after : jsstring) :
  splitAtCi p s = Some (before, after) →
  ∃ m, s = before ++ m ++ after /\ length m = length p.
Proof.
  revert before. induction s as [|u s IH]; intros before.
  - destruct p as [|a p]; cbn; [|done].
    intros [= <- <-]. by exists [].
  - cbn [splitAtCi]. destruct (ciPrefix p (u :: s)) eqn:Hp.
    + intros [= <- <-]. apply ciPrefix_length in Hp.
      exists (take (length p) (u :: s)). split.
      * cbn [app]. by rewrite take_drop.
      * rewrite length_take. lia.
    + destruct (splitAtCi p s) as [[b a]|] eqn:Hs; [|done].
      cbn. intros [= <- <-].
      destruct (IH b eq_refl) as (m & -> & Hm). by exists m.
Qed.

Lemma markupFree_app (a b : jsstring) :
  markupFree (a ++ b) ↔ markupFree a /\ markupFree b.
Proof. apply Forall_app. Qed.

Lemma replaceThink_Formatted (fuel : nat) (html : jsstring) :
  markupFree html → Formatted (replaceThink fuel html).
Proof.
  revert html. induction fuel as [|f IH]; intros html Hfree; [by constructor|].
  cbn [replaceThink].
  destruct (splitAtCi thinkOpen html) as [[before rest]|] eqn:Ho; [|by constructor].
  destruct (splitAtCi thinkClose rest) as [[inner after]|] eqn:Hc; [|by constructor].
  apply splitAtCi_spec in Ho as (m1 & -> & _).
  apply splitAtCi_spec in Hc as (m2 & -> & _).
  rewrite !markupFree_app in Hfree.
  destruct Hfree as (? & _ & ? & _ & ?).
  constructor 2; [done | done | by apply IH].
Qed.

Lemma replaceThink_fuel (n m : nat) (html : jsstring) :
  (length html <= n)%nat → (length html <= m)%nat →
  replaceThink n html = replaceThink m html.
Proof.
  revert m html. induction n as [|n IH]; intros [|m] html Hn Hm; try done.
  - destruct html; [done | cbn in Hn; lia].
  - destruct html; [done | cbn in Hm; lia].
  - cbn [replaceThink].
    destruct (splitAtCi thinkOpen html) as [[before rest]|] eqn:Ho; [|done].
    destruct (splitAtCi thinkClose rest) as [[inner after]|] eqn:Hc; [|done].
    apply splitAtCi_spec in Ho as (m1 & -> & Hm1).
    apply splitAtCi_spec in Hc as (m2 & -> & Hm2).
    rewrite !length_app, Hm1, Hm2 in Hn, Hm. cbn in Hn, Hm.
    rewrite (IH m after); [done | lia | lia].
Qed.

(** X17: the body of a card cannot carry markup of its own.  [escapeHtml]
    leaves no angle bracket in a text (and leaves a text without ampersand,
    no-break space and angle brackets as it is), and in what
    [formatContent] makes of a model's output the only markup is the
    think-block span that the function itself writes around escaped text.
    The replacements end within the length of the text, and a text without
    a think tag is only escaped. *)
Theorem card_body_has_no_foreign_markup (raw : jsstring) :
  markupFree (escapeHtml raw) /\
  Formatted (formatContent raw) /\
  (Forall (fun u => u ≠ 38%N /\ u ≠ 160%N /\ u ≠ 60%N /\ u ≠ 62%N) raw →
   formatContent raw = raw) /\
  (splitAtCi thinkOpen (escapeHtml raw) = None →
   formatContent raw = escapeHtml raw) /\
  (∀ n, (length (escapeHtml raw) <= n)%nat →
        replaceThink n (escapeHtml raw) = formatContent raw).
Proof.
  assert (splitAtCi thinkOpen (escapeHtml raw) = None →
          formatContent raw = escapeHtml raw) as Hnone.
  { intros Hno. unfold formatContent.
    destruct (length (escapeHtml raw)); cbn [replaceThink]; [done|].
    by rewrite Hno. }
  split_and!.
  - apply escapeHtml_markupFree.
  - apply replaceThink_Formatted, escapeHtml_markupFree.
  - intros Hplain. rewrite Hnone; [by apply escapeHtml_plain|].
    rewrite (escapeHtml_plain raw Hplain).
    clear Hnone. induction Hplain as [|u s (H1 & _) Hs IH]; [done|].
    cbn [splitAtCi]. rewrite IH.
    assert (ciPrefix thinkOpen (u :: s) = false) as ->; [|done].
    assert (∃ t, thinkOpen = 38%N :: t) as [t ->] by (by eexists).
    cbn [ciPrefix]. apply andb_false_iff. left. apply N.eqb_neq.
    change (canon 38) with 38%N.
    unfold canon. destruct ((97 <=? u) && (u <=? 122))%N eqn:Hr; [|lia].
    apply andb_true_iff in Hr as [?%N.leb_le ?%N.leb_le]. lia.
  - done.
  - intros n Hn. unfold formatContent. by apply replaceThink_fuel.
Qed.

Lemma card_body_has_no_foreign_markup_witness :
  formatContent (JsString.lit "plain text") = JsString.lit "plain text".
Proof.
  apply (card_body_has_no_foreign_markup (JsString.lit "plain text")).
  repeat constructor; discriminate.
Defined.
